(** * The code-run agent: configuration rewriting and sandboxed execution

    A shallow embedding of [api/coderun-agent/agent.py]:
    - [replace_ibm_quantum_config], the rewriter of the "IBM Quantum Config"
      part of a code buffer,
    - [execute_python_code], the sandbox that runs a buffer through [exec]
      and captures what it writes,
    - [run_program], the handler of [POST /run];
    and of [api/codegen-agent/regex-extractor.py], the script that
    collects the fenced Python blocks of a text.

    Python text is modelled by [string]: every character is a code point
    below 256.  On such text the classes used by the patterns of the agent
    ([\d], [.], [[^']], [[^}]]) are exactly the ones defined below.
    Dictionaries are [gmap]s with string keys; a function that may raise
    returns a sum whose left side is the exception. *)

From stdpp Require Import base option list gmap strings.
From Stdlib Require Import Ascii String Arith Lia DecimalString.

Open Scope string_scope.

(* stdpp keeps [simpl] from unfolding the append of strings; the proofs
   below compute with it. *)
Arguments String.append !s1 s2 : simpl nomatch.

(** ** Python strings *)

Module Py.

Definition NL : string := String "010" "".
Definition DQ : string := String "034" "".

(** [s.startswith(p)] *)
Fixpoint startswith (p s : string) : bool :=
  match p, s with
  | EmptyString, _ => true
  | String a p', String b s' => Ascii.eqb a b && startswith p' s'
  | String _ _, EmptyString => false
  end.

(** [s[n:]] *)
Fixpoint drop (n : nat) (s : string) : string :=
  match n, s with
  | S k, String _ s' => drop k s'
  | _, _ => s
  end.

(** [s[:n]] *)
Fixpoint take (n : nat) (s : string) : string :=
  match n, s with
  | S k, String c s' => String c (take k s')
  | _, _ => ""
  end.

(** [sub in s] *)
Fixpoint str_in (sub s : string) : bool :=
  startswith sub s ||
  match s with
  | String _ s' => str_in sub s'
  | EmptyString => false
  end.

(** [sep.join(l)] *)
Fixpoint join (sep : string) (l : list string) : string :=
  match l with
  | [] => ""
  | [x] => x
  | x :: l' => x ++ sep ++ join sep l'
  end.

(** [''.join(l)] *)
Definition concat (l : list string) : string := foldr String.append "" l.

(** [s.replace(old, new)]: every occurrence, left to right, without
    overlap; [skip] counts the characters of the occurrence being
    replaced that are still to be consumed. *)
Fixpoint replace_go (old new : string) (skip : nat) (s : string) : string :=
  match skip, s with
  | S k, String _ s' => replace_go old new k s'
  | S _, EmptyString => ""
  | 0, String c s' =>
      if startswith old s then
        match String.length old with
        | S k => new ++ replace_go old new k s'
        | 0 => new ++ String c (replace_go old new 0 s')
        end
      else String c (replace_go old new 0 s')
  | 0, EmptyString => if startswith old "" then new else ""
  end.

Definition replace (old new s : string) : string := replace_go old new 0 s.

(** [str(n)] for a natural number *)
Definition str_of_nat (n : nat) : string :=
  NilZero.string_of_uint (Nat.to_uint n).

End Py.

Import Py.

(** ** The fragment of [re] the agent uses

    Every pattern of the agent is a sequence of literals and quantified
    character classes.  [match_at] is the backtracking matcher of [re]
    on such sequences: a greedy quantifier tries the longest run first, a
    lazy one the shortest. *)

Module Re.

Inductive atom : Type :=
| Lit (l : string)                 (* literal text *)
| Plus (cls : ascii -> bool)       (* [cls+], greedy *)
| LazyStar (cls : ascii -> bool).  (* [cls*?], lazy *)

Definition regex := list atom.

(** [\d] on code points below 256 *)
Definition digit (c : ascii) : bool :=
  (48 <=? nat_of_ascii c)%nat && (nat_of_ascii c <=? 57)%nat.

(** [.] without [re.DOTALL] *)
Definition not_newline (c : ascii) : bool := negb (Ascii.eqb c "010").

(** [[^x]] *)
Definition other_than (x c : ascii) : bool := negb (Ascii.eqb c x).

Fixpoint greedy_star (cls : ascii -> bool) (k : string -> option nat)
    (s : string) : option nat :=
  match s with
  | String c s' =>
      if cls c then
        match greedy_star cls k s' with
        | Some n => Some (S n)
        | None => k s
        end
      else k s
  | EmptyString => k s
  end.

Fixpoint lazy_star (cls : ascii -> bool) (k : string -> option nat)
    (s : string) : option nat :=
  match k s with
  | Some n => Some n
  | None =>
      match s with
      | String c s' => if cls c then S <$> lazy_star cls k s' else None
      | EmptyString => None
      end
  end.

(** Length of the match of [r] anchored at the start of [s]. *)
Fixpoint match_at (r : regex) : string -> option nat :=
  match r with
  | [] => fun _ => Some 0
  | Lit l :: r' => fun s =>
      if startswith l s
      then Nat.add (String.length l) <$> match_at r' (drop (String.length l) s)
      else None
  | Plus cls :: r' => fun s =>
      match s with
      | String c s' =>
          if cls c then S <$> greedy_star cls (match_at r') s' else None
      | EmptyString => None
      end
  | LazyStar cls :: r' => lazy_star cls (match_at r')
  end.

(** [re.search(r, s)]: start and length of the leftmost match. *)
Fixpoint search (r : regex) (s : string) : option (nat * nat) :=
  match match_at r s with
  | Some n => Some (0, n)
  | None =>
      match s with
      | String _ s' => (fun '(i, n) => (S i, n)) <$> search r s'
      | EmptyString => None
      end
  end.

(** *** Replacement templates ([re._parser.parse_template], Python 3.12)

    No pattern of the agent has a group, so the only reference a
    template can make is to group 0, the whole match.  [None] stands for
    the template compiler raising ([re.error], or [IndexError] for an
    unknown group name). *)

(** An item of a compiled template: a character or the whole match. *)
Inductive titem : Type :=
| TChar (c : ascii)
| TMatch.

Definition octal (c : ascii) : bool :=
  (48 <=? nat_of_ascii c)%nat && (nat_of_ascii c <=? 55)%nat.

Definition digit_val (c : ascii) : nat := nat_of_ascii c - 48.

Definition ascii_letter (c : ascii) : bool :=
  let n := nat_of_ascii c in
  ((65 <=? n)%nat && (n <=? 90)%nat) || ((97 <=? n)%nat && (n <=? 122)%nat).

(** The name of [\g<name>]: the text before the first [>]. *)
Fixpoint until_gt (s : string) : option string :=
  match s with
  | EmptyString => None
  | String c s' =>
      if Ascii.eqb c ">" then Some ""
      else String c <$> until_gt s'
  end.

Fixpoint all_chars (p : ascii -> bool) (s : string) : bool :=
  match s with
  | EmptyString => true
  | String c s' => p c && all_chars p s'
  end.

(** The escape that starts at a backslash; [s] is the text after the
    backslash.  Returns the items it stands for and how many characters
    of [s] belong to it. *)
Definition escape (s : string) : option (list titem * nat) :=
  match s with
  | EmptyString => None                       (* bad escape (end of pattern) *)
  | String c s1 =>
      if Ascii.eqb c "g" then
        match s1 with
        | String "<" s2 =>
            match until_gt s2 with
            | None => None                    (* missing >, unterminated name *)
            | Some "" => None                 (* missing group name *)
            | Some name =>
                (* a decimal name is a group number: only 0 exists *)
                if all_chars (Ascii.eqb "0") name
                then Some ([TMatch], 3 + String.length name)
                else None                     (* invalid reference, bad name *)
            end
        | _ => None                           (* missing < *)
        end
      else if Ascii.eqb c "0" then
        match s1 with
        | String d1 s2 =>
            if octal d1 then
              match s2 with
              | String d2 _ =>
                  if octal d2
                  then Some ([TChar (ascii_of_nat
                                ((8 * digit_val d1 + digit_val d2) mod 256))], 3)
                  else Some ([TChar (ascii_of_nat (digit_val d1))], 2)
              | EmptyString => Some ([TChar (ascii_of_nat (digit_val d1))], 2)
              end
            else Some ([TChar (ascii_of_nat 0)], 1)
        | EmptyString => Some ([TChar (ascii_of_nat 0)], 1)
        end
      else if digit c then
        match s1 with
        | String d1 (String d2 _) =>
            if octal c && octal d1 && octal d2 then
              let v := 64 * digit_val c + 8 * digit_val d1 + digit_val d2 in
              if (255 <? v)%nat then None     (* octal escape out of range *)
              else Some ([TChar (ascii_of_nat v)], 3)
            else None                         (* invalid group reference *)
        | _ => None                           (* invalid group reference *)
        end
      else if Ascii.eqb c "a" then Some ([TChar "007"%char], 1)
      else if Ascii.eqb c "b" then Some ([TChar "008"%char], 1)
      else if Ascii.eqb c "f" then Some ([TChar "012"%char], 1)
      else if Ascii.eqb c "n" then Some ([TChar "010"%char], 1)
      else if Ascii.eqb c "r" then Some ([TChar "013"%char], 1)
      else if Ascii.eqb c "t" then Some ([TChar "009"%char], 1)
      else if Ascii.eqb c "v" then Some ([TChar "011"%char], 1)
      else if Ascii.eqb c "\" then Some ([TChar "\"%char], 1)
      else if ascii_letter c then None        (* bad escape *)
      else Some ([TChar "\"%char; TChar c], 1)
  end.

Fixpoint parse_template_go (skip : nat) (s : string) : option (list titem) :=
  match s with
  | EmptyString => Some []
  | String c s' =>
      match skip with
      | S k => parse_template_go k s'
      | 0 =>
          if Ascii.eqb c "\" then
            match escape s' with
            | None => None
            | Some (items, n) => app items <$> parse_template_go n s'
            end
          else cons (TChar c) <$> parse_template_go 0 s'
      end
  end.

Definition parse_template (repl : string) : option (list titem) :=
  parse_template_go 0 repl.

(** [expand_template]: the text a compiled template stands for at a
    match [m]. *)
Fixpoint expand_template (t : list titem) (m : string) : string :=
  match t with
  | [] => ""
  | TChar c :: t' => String c (expand_template t' m)
  | TMatch :: t' => m ++ expand_template t' m
  end.

(** *** Substitution and splitting *)

(** The scan of [re.sub]: every match, leftmost first, without overlap,
    is replaced by the template expanded at it. *)
Fixpoint sub_go (r : regex) (t : list titem) (skip : nat) (s : string)
    : string :=
  match skip, s with
  | S k, String _ s' => sub_go r t k s'
  | S _, EmptyString => ""
  | 0, String c s' =>
      match match_at r s with
      | Some (S n) => expand_template t (take (S n) s) ++ sub_go r t n s'
      | Some 0 => expand_template t "" ++ String c (sub_go r t 0 s')
      | None => String c (sub_go r t 0 s')
      end
  | 0, EmptyString =>
      match match_at r "" with
      | Some _ => expand_template t ""
      | None => ""
      end
  end.

(** [re.sub(r, repl, s)]; [None] when the template does not compile. *)
Definition sub (r : regex) (repl s : string) : option string :=
  t ← parse_template repl; Some (sub_go r t 0 s).

(** The scan of [re.split] for a pattern inside one capturing group:
    the text before the first match, then alternately a match and the
    text up to the next one.  (The patterns of the agent never match the
    empty string, see [match_at_marker_pos]; an empty match does not
    split here.) *)
Fixpoint split_go (r : regex) (skip : nat) (s : string)
    : string * list string :=
  match skip, s with
  | S k, String _ s' => split_go r k s'
  | S _, EmptyString => ("", [])
  | 0, String c s' =>
      match match_at r s with
      | Some (S n) =>
          let '(h, t) := split_go r n s' in ("", take (S n) s :: h :: t)
      | _ => let '(h, t) := split_go r 0 s' in (String c h, t)
      end
  | 0, EmptyString => ("", [])
  end.

(** [re.split("(" r ")", s)] *)
Definition split (r : regex) (s : string) : list string :=
  let '(h, t) := split_go r 0 s in h :: t.

End Re.

Import Re.

(** ** Values, exceptions and the log *)

(** The values the credential dictionary holds: a string or [None]. *)
Inductive pyval : Type :=
| VNone
| VStr (s : string).

(** Truth value of [v] in a condition *)
Definition truthy (v : pyval) : bool :=
  match v with
  | VNone => false
  | VStr s => negb (String.eqb s "")
  end.

(** [str(v)], as an f-string renders [v] *)
Definition str (v : pyval) : string :=
  match v with
  | VNone => "None"
  | VStr s => s
  end.

(** [d.get(k)] and [d.get(k, dflt)] *)
Definition dict_get (d : gmap string pyval) (k : string) : pyval :=
  default VNone (d !! k).
Definition dict_get_default (d : gmap string pyval) (k : string) (dflt : pyval)
    : pyval :=
  default dflt (d !! k).

(** The exceptions that occur.  [Raised] is an exception raised by the
    code under execution: whether its class derives from [Exception]
    ([SystemExit], [KeyboardInterrupt] and [GeneratorExit] do not), and
    [str(e)]. *)
Inductive exn : Type :=
| ReError
| IndexError
| KeyError (key : string)
| JSONDecodeError
| TimeoutError
| Raised (is_exception : bool) (message : string).

(** [isinstance(e, Exception)] *)
Definition is_Exception (e : exn) : bool :=
  match e with
  | Raised b _ => b
  | _ => true
  end.

(** The calls of [logger.info], [logger.warning] and [logger.error], one
    constructor per call site. *)
Inductive log_msg : Type :=
| LogConfigProvided (token10 : string)
| LogChannel (channel : string) (instance : bool) (region : string)
| LogFoundAer
| LogFoundNoToken
| LogFoundWithToken
| LogFoundGeneric
| LogNoTokenPattern
| LogCloudNoToken
| LogLocalNoToken
| LogFoundHeader
| LogRemovingOptions
| LogMatchedLegacy (number : nat)
| LogNoLegacyPattern
| LogBeginExecution
| LogTransformed
| LogExecuting
| LogFinishedExecuting
| LogCaptured
| LogExecException
| LogReceived (host : string)
| LogWithConfig
| LogWithoutConfig
| LogDispatching
| LogTaskCompleted
| LogTaskTimedOut
| LogSending (host : string).

(** The text of each message. *)
Definition render (m : log_msg) : string :=
  match m with
  | LogConfigProvided t => "IBM config provided. Injecting token: " ++ t ++ "..."
  | LogChannel c i r =>
      "Channel: " ++ c ++ ", Instance: " ++ (if i then "yes" else "no")
      ++ ", Region: " ++ r
  | LogFoundAer => "Found AerSimulator config, replacing with IBM Quantum config."
  | LogFoundNoToken => "Found IBM Quantum config without token, injecting token."
  | LogFoundWithToken =>
      "Found IBM Quantum config with existing token, updating it."
  | LogFoundGeneric =>
      "Found generic 'QiskitRuntimeService()', injecting parameters."
  | LogNoTokenPattern =>
      "No specific IBM Quantum pattern matched for token injection. Returning original code."
  | LogCloudNoToken =>
      "Cloud mode is active and no token provided. No code replacement will be performed."
  | LogLocalNoToken =>
      "No token provided and local mode is active. Attempting to replace IBM Quantum config with local simulator."
  | LogFoundHeader => "Found IBM Quantum Config section header."
  | LogRemovingOptions => "Removing any remaining IBM Runtime options from code."
  | LogMatchedLegacy n =>
      "Matched IBM Quantum pattern #" ++ str_of_nat n
      ++ ". Replacing with local simulator."
  | LogNoLegacyPattern =>
      "No IBM Quantum patterns matched for local simulator replacement. Returning original code."
  | LogBeginExecution => "Beginning code execution process."
  | LogTransformed =>
      "Code transformation complete. Preparing execution environment."
  | LogExecuting => "Executing user-provided code via exec()."
  | LogFinishedExecuting => "Finished executing user-provided code."
  | LogCaptured => "Successfully captured output from code execution."
  | LogExecException => "An exception occurred during user code execution."
  | LogReceived h => "Received /run request from " ++ h ++ "."
  | LogWithConfig => "Request includes IBM Quantum configuration."
  | LogWithoutConfig =>
      "Request does not include IBM Quantum configuration; will use local simulator if agent is in local mode."
  | LogDispatching => "Dispatching code execution to a background thread."
  | LogTaskCompleted => "Background execution task completed successfully."
  | LogTaskTimedOut => "Background execution task timed out."
  | LogSending h => "Sending response for /run request from " ++ h ++ "."
  end.

(** A computation that logs and may raise. *)
Definition M (A : Type) : Type := list log_msg * (exn + A).

Definition ret {A} (a : A) : M A := ([], inr a).
Definition raise {A} (e : exn) : M A := ([], inl e).
Definition log (m : log_msg) : M unit := ([m], inr tt).
Definition bind {A B} (x : M A) (f : A -> M B) : M B :=
  match x with
  | (l, inl e) => (l, inl e)
  | (l, inr a) => let '(l', r) := f a in ((l ++ l')%list, r)
  end.

Notation "'let*' x ':=' c 'in' k" := (bind c (fun x => k))
  (at level 10, x name, c at level 100, k at level 200).
Notation "c '>>' k" := (bind c (fun _ => k))
  (at level 100, k at level 200, right associativity).

(** The log and the outcome of a computation. *)
Definition logged {A} (x : M A) : list log_msg := fst x.
Definition outcome {A} (x : M A) : exn + A := snd x.

(** [re.sub] as the agent calls it: an exception when the template does
    not compile. *)
Definition re_sub (r : regex) (repl s : string) : M string :=
  match Re.sub r repl s with
  | Some s' => ret s'
  | None => raise ReError
  end.

(** [re.search(...)] in a condition *)
Definition re_search (r : regex) (s : string) : bool :=
  match Re.search r s with
  | Some _ => true
  | None => false
  end.

(** ** The rewriter: [replace_ibm_quantum_config] *)

Module Rewriter.

(** The local-simulator block. *)
Definition aer_block : string := Eval cbv in
  "from qiskit_aer import AerSimulator" ++ NL ++ NL
  ++ "backend = AerSimulator()" ++ NL
  ++ "print(" ++ DQ ++ "Using local simulator..." ++ DQ ++ ")".

Definition ibm_import : string := Eval cbv in
  "from qiskit_ibm_runtime import QiskitRuntimeService" ++ NL ++ NL.

Definition least_busy : string := Eval cbv in
  NL ++ "backend = service.least_busy(operational=True, simulator=False)".

(** The remote-service block without a credential. *)
Definition ibm_block_no_token : string := Eval cbv in
  ibm_import ++ "service = QiskitRuntimeService()" ++ least_busy.

Definition aer_pattern : regex := [Lit aer_block].

Definition ibm_pattern_no_token : regex := [Lit ibm_block_no_token].

Definition ibm_pattern_with_token : regex := Eval cbv in
  [Lit (ibm_import ++ "service = QiskitRuntimeService(token='");
   Plus (other_than "'");
   Lit ("')" ++ least_busy)].

Definition generic_call : string := "QiskitRuntimeService()".

Definition service_params (channel token instance region : pyval)
    : list string :=
  List.app
    ["channel=" ++ DQ ++ str channel ++ DQ; "token=" ++ DQ ++ str token ++ DQ]
    (List.app
       (if truthy instance then ["instance=" ++ DQ ++ str instance ++ DQ] else [])
       (if truthy region then ["region=" ++ DQ ++ str region ++ DQ] else [])).

Definition params_sep : string := Eval cbv in "," ++ NL ++ "    ".

(** The remote-service block with the parameter list [params]. *)
Definition ibm_replacement (params : string) : string :=
  ibm_import
  ++ "# Initialize IBM Quantum Runtime Service with provided configuration"
  ++ NL ++ "service = QiskitRuntimeService(" ++ NL ++ "    " ++ params ++ NL
  ++ ")" ++ least_busy ++ NL
  ++ "print(f" ++ DQ ++ "Using IBM Quantum backend: {backend.name}" ++ DQ ++ ")".

(** What the bare call becomes under rule (d). *)
Definition generic_replacement (params : string) : string :=
  "QiskitRuntimeService(" ++ NL ++ "    " ++ params ++ NL ++ ")".

Definition ibm_config_pattern : regex := [Lit "## STEP 0 : IBM Quantum Config"].

(** [## STEP \d+.*?\n] *)
Definition step_marker : regex :=
  [Lit "## STEP "; Plus digit; LazyStar not_newline; Lit NL].

(** [.*?\.options\..*?\n] *)
Definition options_line : regex :=
  [LazyStar not_newline; Lit ".options."; LazyStar not_newline; Lit NL].

Definition ibm_patterns : list regex := Eval cbv in
  [ [Lit (ibm_import ++ "service = QiskitRuntimeService(token='");
     Plus (other_than "'");
     Lit ("')" ++ least_busy ++ NL ++ "print(f" ++ DQ
          ++ "Using IBM Quantum backend: {");
     Plus (other_than "}");
     Lit ("}" ++ DQ ++ ")")];
    [Lit ibm_block_no_token] ].

(** What the body of the configuration section becomes. *)
Definition step0_body : string := Eval cbv in NL ++ aer_block ++ NL ++ NL.

(** The loop over the odd indices of [sections]; [l] is [sections[1:]],
    so a marker is followed by its body.  The body of the first marker
    that names the configuration section is overwritten, and the loop
    stops. *)
Fixpoint replace_step0 (l : list string) : exn + list string :=
  match l with
  | [] => inr []
  | marker :: l' =>
      if str_in "STEP 0" marker && str_in "IBM Quantum Config" marker then
        match l' with
        | _ :: rest => inr (marker :: step0_body :: rest)
        | [] => inl IndexError
        end
      else
        match l' with
        | body :: rest =>
            match replace_step0 rest with
            | inr rest' => inr (marker :: body :: rest')
            | inl e => inl e
            end
        | [] => inr l
        end
  end.

(** [service_params_str] for the credential [ibm_config]. *)
Definition service_params_str (ibm_config : gmap string pyval) : string :=
  let token := dict_get ibm_config "token" in
  let channel := dict_get_default ibm_config "channel" (VStr "ibm_quantum") in
  let instance := dict_get ibm_config "instance" in
  let region := dict_get ibm_config "region" in
  join params_sep (service_params channel token instance region).

(** The rules applied when a token is supplied. *)
Definition token_present (code : string) (ibm_config : gmap string pyval)
    : M string :=
  let token := dict_get ibm_config "token" in
  let channel := dict_get_default ibm_config "channel" (VStr "ibm_quantum") in
  let instance := dict_get ibm_config "instance" in
  let region := dict_get ibm_config "region" in
  log (LogConfigProvided (take 10 (str token))) >>
  log (LogChannel (str channel) (truthy instance)
         (if truthy region then str region else "none")) >>
  let replacement := ibm_replacement (service_params_str ibm_config) in
  if re_search aer_pattern code then
    log LogFoundAer >> re_sub aer_pattern replacement code
  else if re_search ibm_pattern_no_token code then
    log LogFoundNoToken >> re_sub ibm_pattern_no_token replacement code
  else if re_search ibm_pattern_with_token code then
    log LogFoundWithToken >> re_sub ibm_pattern_with_token replacement code
  else if str_in generic_call code then
    log LogFoundGeneric >>
    ret (replace generic_call
           (generic_replacement (service_params_str ibm_config)) code)
  else
    log LogNoTokenPattern >> ret code.

(** The legacy patterns, tried in order, numbered from [n]. *)
Fixpoint try_patterns (n : nat) (patterns : list regex) (code : string)
    : M string :=
  match patterns with
  | [] => log LogNoLegacyPattern >> ret code
  | pattern :: rest =>
      if re_search pattern code then
        log (LogMatchedLegacy n) >>
        let* modified_code := re_sub pattern aer_block code in
        log LogRemovingOptions >>
        re_sub options_line "" modified_code
      else try_patterns (S n) rest code
  end.

(** The rewriting of the split buffer: the body of the configuration
    section is overwritten, the sections are joined again and the
    option lines are removed. *)
Definition rewrite_sections (sections : list string) : M string :=
  match replace_step0 (List.tl sections) with
  | inl e => raise e
  | inr l =>
      let modified_code := concat (List.app (List.firstn 1 sections) l) in
      log LogRemovingOptions >>
      re_sub options_line "" modified_code
  end.

(** The rules applied without a token, in local mode. *)
Definition token_absent (code : string) : M string :=
  log LogLocalNoToken >>
  if re_search ibm_config_pattern code then
    log LogFoundHeader >>
    let sections := Re.split step_marker code in
    if (3 <=? List.length sections)%nat
    then rewrite_sections sections
    else try_patterns 1 ibm_patterns code
  else try_patterns 1 ibm_patterns code.

(** [replace_ibm_quantum_config(code, ibm_config)], with the global
    [LOCAL_MODE] as a parameter. *)
Definition replace_ibm_quantum_config (LOCAL_MODE : bool) (code : string)
    (ibm_config : option (gmap string pyval)) : M string :=
  match ibm_config with
  | Some d =>
      if bool_decide (d <> ∅) && truthy (dict_get d "token")
      then token_present code d
      else if negb LOCAL_MODE then log LogCloudNoToken >> ret code
      else token_absent code
  | None =>
      if negb LOCAL_MODE then log LogCloudNoToken >> ret code
      else token_absent code
  end.

End Rewriter.

Import Rewriter.

(** ** The sandbox: [execute_python_code] *)

Module Sandbox.

Inductive channel : Type := Stdout | Stderr.

(** How the execution of a buffer ends: it runs to its end, or an
    exception leaves it ([is_exception]: its class derives from
    [Exception]; [message]: [str(e)]). *)
Inductive ending : Type :=
| Finished
| Faulted (is_exception : bool) (message : string).

(** What one call of [exec] does: the writes to [sys.stdout] and
    [sys.stderr] in the order they occur, how it ends, the state of the
    interpreter it leaves, and the time it takes. *)
Record run (store : Type) : Type := {
  writes : list (channel * string);
  ended : ending;
  final : store;
  seconds : nat
}.
Arguments writes {store}.
Arguments ended {store}.
Arguments final {store}.
Arguments seconds {store}.

(** The objects a global name can be bound to. *)
Inductive object : Type :=
| OStr (s : string)
| OModule (name : string).

(** [exec(code, globals)] in the interpreter state [σ].  The state holds
    what outlives a call: the [builtins] module, [sys.modules], the
    environment. *)
Definition interpreter (store : Type) : Type :=
  string -> gmap string object -> store -> run store.

(** [{"__builtins__": __builtins__}] *)
Definition exec_globals : gmap string object :=
  {[ "__builtins__" := OModule "builtins" ]}.

(** [StringIO.getvalue()] of the capture of channel [ch]. *)
Fixpoint captured (ch : channel) (ws : list (channel * string)) : string :=
  match ws with
  | [] => ""
  | (Stdout, t) :: ws' =>
      match ch with Stdout => t ++ captured ch ws' | Stderr => captured ch ws' end
  | (Stderr, t) :: ws' =>
      match ch with Stderr => t ++ captured ch ws' | Stdout => captured ch ws' end
  end.

Definition no_output : string := "Code executed successfully (no output)".

Section WithInterpreter.

Context {store : Type}.
Variable exec : interpreter store.
Variable LOCAL_MODE : bool.

(** The [try] block, once the buffer is rewritten. *)
Definition run_captured (code : string) (σ : store) : M string * run store :=
  let r := exec code exec_globals σ in
  let stdout_output := captured Stdout (writes r) in
  let stderr_output := captured Stderr (writes r) in
  (match ended r with
   | Finished =>
       log LogExecuting >> log LogFinishedExecuting >>
       let output := stdout_output ++ stderr_output in
       log LogCaptured >>
       ret (if String.eqb output "" then no_output else output)
   | Faulted true message =>
       log LogExecuting >> log LogExecException >>
       ret ("Error executing code: " ++ message ++ NL ++ stderr_output)
   | Faulted false message =>
       log LogExecuting >> raise (Raised false message)
   end, r).

(** [execute_python_code(code, ibm_config)]: the outcome, the state of
    the interpreter afterwards and the time taken. *)
Definition execute_python_code (code : string)
    (ibm_config : option (gmap string pyval)) (σ : store)
    : M string * store * nat :=
  let rewritten :=
    log LogBeginExecution >>
    let* code := replace_ibm_quantum_config LOCAL_MODE code ibm_config in
    log LogTransformed >> ret code in
  match outcome rewritten with
  | inl e => (rewritten, σ, 0)
  | inr code' =>
      let '(m, r) := run_captured code' σ in
      ((rewritten >> m), final r, seconds r)
  end.

End WithInterpreter.

End Sandbox.

Import Sandbox.

(** ** The gateway: [run_program] and the application around it *)

Module Gateway.

(** A request: the client and the body as [request.json()] decodes it,
    [None] when the body is not JSON.  The members of the object are
    strings. *)
Record request : Type := {
  client_host : string;
  body : option (gmap string string)
}.

(** [JSONResponse(content, status_code)] *)
Record response : Type := JSONResponse {
  status_code : nat;
  content : gmap string string
}.

Definition timeout_seconds : nat := 30 * 60.

Definition timeout_message : string :=
  "Error: Code execution timed out after "
  ++ str_of_nat (timeout_seconds / 60) ++ " minutes.".

(** [data.get(k)] on the decoded body *)
Definition data_get (data : gmap string string) (k : string) : pyval :=
  match data !! k with
  | Some v => VStr v
  | None => VNone
  end.

(** The credential [run_program] builds from the body: a dictionary
    when [ibm_token] is given and not empty, [None] otherwise. *)
Definition ibm_config_of (data : gmap string string)
    : option (gmap string pyval) :=
  let ibm_token := data_get data "ibm_token" in
  let channel := default (VStr "ibm_quantum") (VStr <$> data !! "channel") in
  let instance := data_get data "instance" in
  let region := data_get data "region" in
  if truthy ibm_token
  then Some {[ "token" := ibm_token; "channel" := channel;
               "instance" := instance; "region" := region ]}
  else None.

Section WithInterpreter.

Context {store : Type}.
Variable exec : interpreter store.
Variable LOCAL_MODE : bool.

(** [run_program(request)] *)
Definition run_program (req : request) (σ : store) : M response * store :=
  match body req with
  | None => (log (LogReceived (client_host req)) >> raise JSONDecodeError, σ)
  | Some data =>
      match data !! "input_value" with
      | None =>
          (log (LogReceived (client_host req)) >>
           raise (KeyError "input_value"), σ)
      | Some code =>
          let ibm_config := ibm_config_of data in
          let '(executed, σ', elapsed) :=
            execute_python_code exec LOCAL_MODE code ibm_config σ in
          (log (LogReceived (client_host req)) >>
           log (match ibm_config with
                | Some _ => LogWithConfig
                | None => LogWithoutConfig
                end) >>
           log LogDispatching >>
           let* output :=
             if (timeout_seconds <? elapsed)%nat then
               (logged executed, inr tt) >>
               log LogTaskTimedOut >> ret timeout_message
             else
               let* output := executed in
               log LogTaskCompleted >> ret output in
           log (LogSending (client_host req)) >>
           let output :=
             if negb (String.eqb output "")
             then replace "\\n" NL output else output in
           ret (JSONResponse 200 {[ "output" := output ]}),
           σ')
      end
  end.

(** The handler registered for [JSONDecodeError]. *)
Definition json_decode_exception_handler : response :=
  JSONResponse 400 {[ "detail" := "Invalid JSON format in request body" ]}.

(** What the client receives: the response of the handler, the
    response of the exception handler registered for the class of the
    exception, or, for an exception no handler is registered for, the
    status 500 of the server-error middleware. *)
Definition status_of (r : exn + response) : nat :=
  match r with
  | inr resp => status_code resp
  | inl JSONDecodeError => status_code json_decode_exception_handler
  | inl _ => 500
  end.

End WithInterpreter.

(** The mode the [__main__] block selects from the launch arguments. *)
Definition local_mode_of_args (cloud : bool) : bool :=
  if cloud then false else true.

End Gateway.

Import Gateway.

(** ** A fragment of Python

    [exec] itself is a parameter of the sandbox.  To run concrete buffers
    this module gives the meaning of a small fragment of Python, one
    statement per line:
    - [import sys], [import builtins], [import time];
    - [x = 'text'], a global assignment;
    - [builtins.x = 'text'], an attribute set on the [builtins] module;
    - [print('text')], [print('text', file=sys.stderr)], [print(x)];
    - [raise Exception('text')], [raise ValueError('text')],
      [raise SystemExit('text')];
    - [time.sleep(n)].
    Names start with the letter x (no built-in name does); a text holds no
    quote, backslash or newline.  The interpreter state is the set of
    attributes added to the [builtins] module, which every call of [exec]
    in the process shares.  A buffer outside the fragment has no meaning
    here ([None]). *)

Module PyFragment.

Definition store : Type := gmap string string.

Inductive stmt : Type :=
| SPass
| SImport (module : string)
| SAssign (x text : string)
| SSetBuiltin (x text : string)
| SPrintText (text : string)
| SPrintErr (text : string)
| SPrintName (x : string)
| SRaise (is_exception : bool) (text : string)
| SSleep (n : nat).

(** [s.split("\n")] *)
Fixpoint split_lines (s : string) : string * list string :=
  match s with
  | EmptyString => ("", [])
  | String c s' =>
      let '(h, t) := split_lines s' in
      if Ascii.eqb c "010" then ("", h :: t) else (String c h, t)
  end.

Definition lines (s : string) : list string :=
  let '(h, t) := split_lines s in h :: t.

Definition text_char (c : ascii) : bool :=
  negb (Ascii.eqb c "'") && negb (Ascii.eqb c "\") && negb (Ascii.eqb c "010").

Definition name_char (c : ascii) : bool :=
  ascii_letter c || digit c || Ascii.eqb c "_".

(** The longest prefix of [s] made of characters of [p], and the rest. *)
Fixpoint span (p : ascii -> bool) (s : string) : string * string :=
  match s with
  | String c s' =>
      if p c then let '(h, t) := span p s' in (String c h, t) else ("", s)
  | EmptyString => ("", "")
  end.

(** A text between single quotes at the start of [s], and what follows
    the closing quote. *)
Definition quoted (s : string) : option (string * string) :=
  match s with
  | String "'" s' =>
      match span text_char s' with
      | (text, String "'" rest) => Some (text, rest)
      | _ => None
      end
  | _ => None
  end.

(** A name at the start of [s], and what follows it. *)
Definition name (s : string) : option (string * string) :=
  match span name_char s with
  | (String "x" x, rest) => Some (String "x" x, rest)
  | _ => None
  end.

Definition raise_of (is_exception : bool) (s : string) : option stmt :=
  match quoted s with
  | Some (text, ")") => Some (SRaise is_exception text)
  | _ => None
  end.

Definition assignment (mk : string -> string -> stmt) (s : string)
    : option stmt :=
  match name s with
  | Some (x, rest) =>
      if startswith " = " rest then
        match quoted (drop 3 rest) with
        | Some (text, "") => Some (mk x text)
        | _ => None
        end
      else None
  | None => None
  end.

Definition parse_line (line : string) : option stmt :=
  if String.eqb line "" then Some SPass
  else if String.eqb line "import sys" then Some (SImport "sys")
  else if String.eqb line "import builtins" then Some (SImport "builtins")
  else if String.eqb line "import time" then Some (SImport "time")
  else if startswith "print(" line then
    let arg := drop 6 line in
    match quoted arg with
    | Some (text, ")") => Some (SPrintText text)
    | Some (text, ", file=sys.stderr)") => Some (SPrintErr text)
    | Some _ => None
    | None =>
        match name arg with
        | Some (x, ")") => Some (SPrintName x)
        | _ => None
        end
    end
  else if startswith "raise Exception(" line then raise_of true (drop 16 line)
  else if startswith "raise ValueError(" line then raise_of true (drop 17 line)
  else if startswith "raise SystemExit(" line then raise_of false (drop 17 line)
  else if startswith "time.sleep(" line then
    match span digit (drop 11 line) with
    | (String d ds, ")") =>
        Some (SSleep (fold_left (fun acc c => 10 * acc + digit_val c)
                        (list_ascii_of_string (String d ds)) 0))
    | _ => None
    end
  else if startswith "builtins." line then assignment SSetBuiltin (drop 9 line)
  else assignment SAssign line.

(** The state of an execution under way. *)
Record state : Type := {
  globals : gmap string object;
  builtins : store;
  written : list (channel * string);
  slept : nat
}.

Definition name_error (x : string) : ending :=
  Faulted true ("name '" ++ x ++ "' is not defined").

(** [print(text, file=ch)]: the text, then the line end. *)
Definition print_to (ch : channel) (text : string) (st : state) : state :=
  {| globals := globals st; builtins := builtins st;
     written := List.app (written st) [(ch, text); (ch, NL)];
     slept := slept st |}.

(** Whether the global [m] is the module [m]; a name the globals do not
    bind is looked up among the built-ins. *)
Definition module_bound (m : string) (st : state) : option bool :=
  match globals st !! m with
  | Some (OModule m') => if String.eqb m m' then Some true else None
  | Some (OStr _) => None
  | None =>
      match builtins st !! m with
      | Some _ => None
      | None => Some false
      end
  end.

(** One statement: the state after it, or the exception that leaves it.
    [None]: outside the fragment. *)
Definition step (s : stmt) (st : state) : option (ending + state) :=
  match s with
  | SPass => Some (inr st)
  | SImport m =>
      Some (inr {| globals := <[ m := OModule m ]> (globals st);
                   builtins := builtins st; written := written st;
                   slept := slept st |})
  | SAssign x text =>
      Some (inr {| globals := <[ x := OStr text ]> (globals st);
                   builtins := builtins st; written := written st;
                   slept := slept st |})
  | SSetBuiltin x text =>
      b ← module_bound "builtins" st;
      Some (if b : bool
            then inr {| globals := globals st;
                        builtins := <[ x := text ]> (builtins st);
                        written := written st; slept := slept st |}
            else inl (name_error "builtins"))
  | SPrintText text => Some (inr (print_to Stdout text st))
  | SPrintErr text =>
      b ← module_bound "sys" st;
      Some (if b : bool then inr (print_to Stderr text st)
            else inl (name_error "sys"))
  | SPrintName x =>
      match globals st !! x with
      | Some (OStr text) => Some (inr (print_to Stdout text st))
      | Some (OModule _) => None
      | None =>
          match builtins st !! x with
          | Some text => Some (inr (print_to Stdout text st))
          | None => Some (inl (name_error x))
          end
      end
  | SRaise is_exception text => Some (inl (Faulted is_exception text))
  | SSleep n =>
      b ← module_bound "time" st;
      Some (if b : bool
            then inr {| globals := globals st; builtins := builtins st;
                        written := written st; slept := slept st + n |}
            else inl (name_error "time"))
  end.


Definition run_of (e : ending) (st : state) : run store :=
  {| writes := written st; ended := e; final := builtins st;
     seconds := slept st |}.

Fixpoint exec_stmts (l : list stmt) (st : state) : option (run store) :=
  match l with
  | [] => Some (run_of Finished st)
  | s :: l' =>
      r ← step s st;
      match r with
      | inl e => Some (run_of e st)
      | inr st' => exec_stmts l' st'
      end
  end.

Definition run_fragment (code : string) (g : gmap string object) (σ : store)
    : option (run store) :=
  l ← mapM parse_line (lines code);
  exec_stmts l {| globals := g; builtins := σ; written := []; slept := 0 |}.

(** The fragment as an interpreter.  Outside the fragment it is given
    an arbitrary behaviour; nothing below runs it there. *)
Definition exec : interpreter store :=
  fun code g σ =>
    default {| writes := []; ended := Faulted true "outside the fragment";
               final := σ; seconds := 0 |}
            (run_fragment code g σ).

End PyFragment.

(** * The notions the statements use *)

Module Spec.

(** [t] has no border: no proper suffix of it is a prefix of it.  The
    occurrences of such a text in a buffer never overlap. *)
Definition border_free (t : string) : bool :=
  forallb (fun k => negb (startswith (drop (S k) t) t))
          (List.seq 0 (String.length t - 1)).

(** The compiled form of a template without a backslash. *)
Fixpoint literal_template (s : string) : list titem :=
  match s with
  | EmptyString => []
  | String c s' => TChar c :: literal_template s'
  end.

(** The credential is present and carries a non-empty token. *)
Definition carries_token (cfg : option (gmap string pyval)) : bool :=
  match cfg with
  | Some d =>
      match d !! "token" with
      | Some (VStr t) => negb (String.eqb t "")
      | _ => false
      end
  | None => false
  end.

(** The rules of the token-present family, in the words of the
    specification: (a) local-simulator block, (b) remote-service block
    without credential, (c) remote-service block with a credential,
    (d) bare service-construction call. *)
Inductive rule : Type :=
| SimulatorBlock
| RemoteNoCredential
| RemoteWithCredential
| BareCall.

Definition priority : list rule :=
  [SimulatorBlock; RemoteNoCredential; RemoteWithCredential; BareCall].

Definition trigger (r : rule) (code : string) : bool :=
  match r with
  | SimulatorBlock => re_search aer_pattern code
  | RemoteNoCredential => re_search ibm_pattern_no_token code
  | RemoteWithCredential => re_search ibm_pattern_with_token code
  | BareCall => str_in generic_call code
  end.

Definition found (r : rule) : log_msg :=
  match r with
  | SimulatorBlock => LogFoundAer
  | RemoteNoCredential => LogFoundNoToken
  | RemoteWithCredential => LogFoundWithToken
  | BareCall => LogFoundGeneric
  end.

Definition apply_rule (r : rule) (params code : string) : M string :=
  match r with
  | SimulatorBlock => re_sub aer_pattern (ibm_replacement params) code
  | RemoteNoCredential =>
      re_sub ibm_pattern_no_token (ibm_replacement params) code
  | RemoteWithCredential =>
      re_sub ibm_pattern_with_token (ibm_replacement params) code
  | BareCall => ret (replace generic_call (generic_replacement params) code)
  end.

(** The first rule, in priority order, whose trigger matches. *)
Definition first_match (code : string) : option rule :=
  List.find (fun r => trigger r code) priority.

(** The token-present family as the specification words it: the first
    matching rule is applied, alone; without a match the buffer is
    returned as it is. *)
Definition first_match_wins (code : string) (d : gmap string pyval)
    : M string :=
  log (LogConfigProvided (take 10 (str (dict_get d "token")))) >>
  log (LogChannel (str (dict_get_default d "channel" (VStr "ibm_quantum")))
         (truthy (dict_get d "instance"))
         (if truthy (dict_get d "region")
          then str (dict_get d "region") else "none")) >>
  match first_match code with
  | Some r => log (found r) >> apply_rule r (service_params_str d) code
  | None => log LogNoTokenPattern >> ret code
  end.

End Spec.

Import Spec.

(** * Concrete buffers and requests *)

Module Examples.


(** A credential as [run_program] builds it for the token [tok]. *)
Definition demo_credential : gmap string pyval :=
  {[ "token" := VStr "tok"; "channel" := VStr "ibm_quantum";
     "instance" := VNone; "region" := VNone ]}.

(** Three pieces of text around two simulator blocks. *)
Definition demo_blocks : list string :=
  ["# first" ++ NL; NL ++ "# second" ++ NL; NL ++ "print(backend)"].

(** Pieces around three bare calls: one in a comment, one in a string
    literal, one in code. *)
Definition demo_calls : list string :=
  ["# "; " in a comment" ++ NL ++ "s = '"; "'" ++ NL ++ "service = "; ""].






(** Sleeps for more than the thirty minutes of the gateway. *)
Definition sleeps_too_long : string := Eval cbv in
  "import time" ++ NL ++ "time.sleep(1801)" ++ NL ++ "print('done')".

(** The body [{}]: JSON, without the code field. *)
Definition empty_object : gmap string string := ∅.

(** A token with a backslash followed by a letter that is no escape,
    for a buffer that holds the simulator block. *)
Definition backslash_token_body : gmap string string :=
  {[ "input_value" := aer_block; "ibm_token" := "a\q" ]}.

(** Both the simulator block and a bare call. *)
Definition block_and_call : string := Eval cbv in
  aer_block ++ NL ++ "service = QiskitRuntimeService()".



(** The buffer of [test_replace_basic_config]. *)
Definition test_basic_config : string := Eval cbv in
  "## STEP 0 : IBM Quantum Config" ++ NL ++ ibm_block_no_token ++ NL
  ++ "print(f'Using backend: {backend.name}')" ++ NL ++ NL
  ++ "## STEP 1 : Test" ++ NL ++ "print('Hello World!')".

End Examples.

Import Examples.

(** * Lines, markers and option lines *)

Module Lines.

(** [l] holds no line end. *)
Definition one_line (l : string) : bool := all_chars not_newline l.

(** The length of the first line of [s], its line end included;
    [None] when [s] holds no line end. *)
Fixpoint line_end (s : string) : option nat :=
  match s with
  | EmptyString => None
  | String c s' => if Ascii.eqb c "010" then Some 1 else S <$> line_end s'
  end.

(** Where [step_marker] matches, in closed form: the text [## STEP ], a
    digit, and the rest of the line. *)
Definition marker_at (s : string) : option nat :=
  if startswith "## STEP " s then
    match drop 8 s with
    | String c s' =>
        if digit c then (fun n => 8 + S n) <$> line_end s' else None
    | EmptyString => None
    end
  else None.

(** What follows the first [.*?] of [options_line], in closed form. *)
Definition options_tail (s : string) : option nat :=
  if startswith ".options." s
  then Nat.add 9 <$> line_end (drop 9 s)
  else None.

(** The removal of the option lines: [re.sub(options_line, "", s)]. *)
Definition strip_options (s : string) : string := sub_go options_line [] 0 s.

(** The configuration header, the header line up to its line end and
    the marker that starts every section. *)
Definition header : string := "## STEP 0 : IBM Quantum Config".
Definition marker_start : string := "## STEP ".

End Lines.

Import Lines.

(** * Rewriting twice *)

Module Twice.



End Twice.

Import Twice.

(** * Further notions: credentials, sections, the response text *)

Module More.

(** A value holds no backslash once rendered. *)
Definition plain_value (v : pyval) : bool := negb (str_in "\" (str v)).

(** The four parameters of the credential hold no backslash. *)
Definition plain_credential (d : gmap string pyval) : bool :=
  plain_value (dict_get_default d "channel" (VStr "ibm_quantum"))
  && plain_value (dict_get d "token")
  && plain_value (dict_get d "instance")
  && plain_value (dict_get d "region").

(** The remote-service block that carries the credential [old]. *)
Definition with_token_start : string := Eval cbv in
  ibm_import ++ "service = QiskitRuntimeService(token='".
Definition with_token_end : string := Eval cbv in "')" ++ least_busy.
Definition block_with_token (old : string) : string :=
  with_token_start ++ old ++ with_token_end.

(** The markers of a split buffer: the elements at the odd indices. *)
Fixpoint markers (l : list string) : list string :=
  match l with
  | marker :: _ :: l' => marker :: markers l'
  | _ => []
  end.

(** A marker names the configuration section. *)
Definition names_step0 (marker : string) : bool :=
  str_in "STEP 0" marker && str_in "IBM Quantum Config" marker.

(** The text the sandbox makes of a run; none when the run ends with an
    exception outside [Exception]. *)
Definition text_of_run {store : Type} (r : run store) : option string :=
  match ended r with
  | Finished =>
      let output := captured Stdout (writes r) ++ captured Stderr (writes r) in
      Some (if String.eqb output "" then no_output else output)
  | Faulted true message =>
      Some ("Error executing code: " ++ message ++ NL
            ++ captured Stderr (writes r))
  | Faulted false _ => None
  end.

(** A credential whose token holds a backslash before a letter that is no
    escape. *)
Definition backslash_credential : gmap string pyval :=
  {[ "token" := VStr "a\q" ]}.

(** Two lines on standard output. *)
Definition prints_twice : string := Eval cbv in
  "print('a')" ++ NL ++ "print('b')".

(** Raises [SystemExit]. *)
Definition exits : string := "raise SystemExit('bye')".

(** The pieces of [test_code_ibm] around its remote-service block. *)
Definition test_code_ibm_parts : list string := Eval cbv in
  [NL; NL ++ NL ++ "print(" ++ DQ ++ "Test successful!" ++ DQ ++ ")" ++ NL].

(** A buffer whose remote-service block carries the credential [OLD]. *)
Definition stale_before : string := Eval cbv in "# setup" ++ NL.
Definition stale_after : string := Eval cbv in NL ++ "print(backend.name)".

(** A marker that does not name the configuration section, then the
    header on a last line without line end. *)
Definition header_after_marker : string := Eval cbv in
  "## STEP 1 : Circuit" ++ NL ++ "x = 1" ++ NL
  ++ "## STEP 0 : IBM Quantum Config".

End More.

Import More.

(** * The code extractor of the code-generation agent

    [regex-extractor.py] collects the fenced Python blocks of a text: the
    first group of every match of a compiled pattern, the empty ones
    left out, joined by line ends.  The pattern is a constant that
    compiles, and neither [findall] nor [join] raises [ValueError] on
    strings: of the script's branches only the first can run. *)

Module Extractor.

(** [\s] of a [str] pattern, on code points below 256. *)
Definition whitespace (c : ascii) : bool :=
  let n := nat_of_ascii c in
  ((9 <=? n)%nat && (n <=? 13)%nat) || ((28 <=? n)%nat && (n <=? 32)%nat)
  || (n =? 133)%nat || (n =? 160)%nat.

Definition open_fence : string := "```python".

Definition close_fence : string := Eval cbv in NL ++ "```".

(** The lazy group with the closing fence after it: the shortest text
    that a closing fence follows, and the length of the two. *)
Fixpoint group_then_close (s : string) : option (string * nat) :=
  if startswith close_fence s then Some ("", String.length close_fence)
  else
    match s with
    | String c s' =>
        (fun '(g, n) => (String c g, S n)) <$> group_then_close s'
    | EmptyString => None
    end.

(** The line end before the group. *)
Definition newline_then (s : string) : option (string * nat) :=
  match s with
  | String c s' =>
      if Ascii.eqb c "010"
      then (fun '(g, n) => (g, S n)) <$> group_then_close s'
      else None
  | EmptyString => None
  end.

(** The greedy run of whitespace after the opening fence: the longest
    run first, one character given back at a time. *)
Fixpoint spaces_then (s : string) : option (string * nat) :=
  match s with
  | String c s' =>
      if whitespace c then
        match spaces_then s' with
        | Some (g, n) => Some (g, S n)
        | None => newline_then s
        end
      else newline_then s
  | EmptyString => newline_then s
  end.

(** The match of the pattern anchored at the start of [s]: its first
    group and its length. *)
Definition match_block (s : string) : option (string * nat) :=
  if startswith open_fence s
  then (fun '(g, n) => (g, String.length open_fence + n))
         <$> spaces_then (drop (String.length open_fence) s)
  else None.

(** The scan of [pattern.findall]: the group of every match, leftmost
    first, without overlap. *)
Fixpoint findall_go (skip : nat) (s : string) : list string :=
  match skip, s with
  | S k, String _ s' => findall_go k s'
  | S _, EmptyString => []
  | 0, String _ s' =>
      match match_block s with
      | Some (g, S n) => g :: findall_go n s'
      | Some (g, 0) => g :: findall_go 0 s'
      | None => findall_go 0 s'
      end
  | 0, EmptyString => []
  end.

Definition findall (s : string) : list string := findall_go 0 s.

(** The script, for [input[0]] the text [text]: the value of [output]. *)
Definition extract (text : string) : string :=
  join NL (List.filter (fun m => negb (String.eqb m "")) (findall text)).

(** A fenced block: the opening fence, whitespace, a line end, the code
    and the closing fence. *)
Definition fenced (ws code : string) : string :=
  open_fence ++ ws ++ NL ++ code ++ close_fence.

(** An answer of the model with one block. *)
Definition answer_before : string := Eval cbv in "Here is the code:" ++ NL.
Definition answer_after : string := Eval cbv in NL ++ "Done.".

End Extractor.

Import Extractor.

(** * Facts about the string operations *)

Section StringFacts.

Lemma append_nil_r (s : string) : s ++ "" = s.
Proof. induction s as [|c s IH]; simpl; [reflexivity | now rewrite IH]. Qed.

Lemma append_assoc (a b c : string) : (a ++ b) ++ c = a ++ b ++ c.
Proof. induction a as [|x a IH]; simpl; [reflexivity | now rewrite IH]. Qed.

Lemma length_append (a b : string) :
  String.length (a ++ b) = String.length a + String.length b.
Proof. induction a as [|x a IH]; simpl; [reflexivity | now rewrite IH]. Qed.

Lemma startswith_app (p s : string) : startswith p (p ++ s) = true.
Proof.
  induction p as [|c p IH]; simpl; [reflexivity |].
  now rewrite Ascii.eqb_refl, IH.
Qed.

Lemma startswith_inv (p s : string) :
  startswith p s = true -> exists r, s = p ++ r.
Proof.
  revert s; induction p as [|c p IH]; intros s H; simpl in *.
  - now exists s.
  - destruct s as [|d s]; [discriminate |].
    apply andb_prop in H as [Hc Hp].
    apply Ascii.eqb_eq in Hc; subst d.
    destruct (IH _ Hp) as [r ->]. now exists r.
Qed.

Lemma drop_app (p s : string) : drop (String.length p) (p ++ s) = s.
Proof. induction p as [|c p IH]; simpl; [now destruct s | exact IH]. Qed.

Lemma take_app (p s : string) : take (String.length p) (p ++ s) = p.
Proof.
  induction p as [|c p IH]; simpl; [now destruct s | now rewrite IH].
Qed.

Lemma take_drop (n : nat) (s : string) : take n s ++ drop n s = s.
Proof.
  revert s; induction n as [|n IH]; intros [|c s]; simpl; try reflexivity.
  now rewrite IH.
Qed.

Lemma drop_nil (n : nat) : drop n "" = "".
Proof. now destruct n. Qed.

Lemma str_in_startswith (t s : string) :
  startswith t s = true -> str_in t s = true.
Proof. intros H. destruct s; simpl; now rewrite H. Qed.

Lemma str_in_app (t a b : string) : str_in t (a ++ t ++ b) = true.
Proof.
  induction a as [|c a IH]; simpl.
  - apply str_in_startswith, startswith_app.
  - rewrite IH. apply orb_true_r.
Qed.

Lemma str_in_inv (t s : string) :
  str_in t s = true -> exists a b, s = a ++ t ++ b.
Proof.
  induction s as [|c s IH]; simpl; intros H.
  - rewrite orb_false_r in H. destruct t; [|discriminate].
    now exists "", "".
  - apply orb_prop in H as [H|H].
    + destruct (startswith_inv _ _ H) as [r Hr]. now exists "", r.
    + destruct (IH H) as (a & b & ->). now exists (String c a), b.
Qed.

(** A text that does not occur in [s] does not start any suffix of it. *)
Lemma str_in_false_cons (t : string) (c : ascii) (s : string) :
  str_in t (String c s) = false ->
  startswith t (String c s) = false /\ str_in t s = false.
Proof. simpl. intros H. now apply orb_false_elim in H. Qed.

Lemma str_in_false_app_l (t a b : string) :
  str_in t (a ++ b) = false -> str_in t a = false.
Proof.
  intros H. destruct (str_in t a) eqn:E; [|reflexivity].
  destruct (str_in_inv _ _ E) as (x & y & ->).
  rewrite !append_assoc, str_in_app in H. discriminate.
Qed.

(** How a prefix test splits over an append. *)
Lemma startswith_append (t q s : string) :
  startswith t (q ++ s) = true ->
  if (String.length q <=? String.length t)%nat
  then startswith (drop (String.length q) t) s = true
  else startswith t q = true.
Proof.
  revert t; induction q as [|c q IH]; intros t H; simpl in *.
  - now destruct t.
  - destruct t as [|d t]; [reflexivity |]. simpl in *.
    apply andb_prop in H as [Hc Ht]. rewrite Hc. simpl.
    exact (IH _ Ht).
Qed.

Lemma startswith_shorter (u t x : string) :
  startswith u (t ++ x) = true ->
  (String.length u <= String.length t)%nat ->
  startswith u t = true.
Proof.
  revert t; induction u as [|c u IH]; intros t H Hl; simpl in *; [reflexivity |].
  destruct t as [|d t]; simpl in *; [lia |].
  apply andb_prop in H as [Hc Hu]. rewrite Hc. simpl.
  apply IH; [exact Hu | lia].
Qed.

Lemma length_drop (n : nat) (s : string) :
  String.length (drop n s) = String.length s - n.
Proof.
  revert s; induction n as [|n IH]; intros [|c s]; simpl; try reflexivity.
  apply IH.
Qed.

(** Before an occurrence of a border-free text, and after a text it
    does not occur in, it starts nowhere else. *)
Lemma border_free_first (t q x : string) :
  border_free t = true -> str_in t q = false -> q <> "" ->
  startswith t (q ++ t ++ x) = false.
Proof.
  intros Hb Hq Hne.
  destruct (startswith t (q ++ t ++ x)) eqn:E; [exfalso | reflexivity].
  assert (Hnq : startswith t q = false).
  { destruct (startswith t q) eqn:F; [|reflexivity].
    apply str_in_startswith in F. congruence. }
  pose proof (startswith_append _ _ _ E) as E2.
  destruct (String.length q <=? String.length t)%nat eqn:Hl; [|congruence].
  apply Nat.leb_le in Hl.
  destruct (Nat.eq_dec (String.length q) (String.length t)) as [Heq|Hneq].
  - apply startswith_shorter in E; [congruence | lia].
  - apply startswith_shorter in E2; [|rewrite length_drop; lia].
    destruct q as [|c q]; [contradiction|].
    change (String.length (String c q)) with (S (String.length q)) in *.
    unfold border_free in Hb. rewrite forallb_forall in Hb.
    specialize (Hb (String.length q)). rewrite E2 in Hb.
    assert (In (String.length q) (List.seq 0 (String.length t - 1)))
      by (apply in_seq; lia).
    specialize (Hb H). discriminate.
Qed.

End StringFacts.

(** * Facts about replacement and search *)

Section ReplaceFacts.

Lemma drop_0 (s : string) : drop 0 s = s.
Proof. now destruct s. Qed.

Lemma replace_go_skip (old new : string) (k : nat) (s : string) :
  (k <= String.length s)%nat ->
  replace_go old new k s = replace_go old new 0 (drop k s).
Proof.
  revert s; induction k as [|k IH]; intros s Hk.
  - now rewrite drop_0.
  - destruct s as [|c s]; simpl in *; [lia |]. apply IH. lia.
Qed.

Lemma replace_absent (old new p : string) :
  str_in old p = false -> replace old new p = p.
Proof.
  unfold replace. induction p as [|c p IH]; intros H.
  - simpl in *. rewrite orb_false_r in H. now rewrite H.
  - apply str_in_false_cons in H as [H1 H2].
    cbn [replace_go]. rewrite H1, (IH H2). reflexivity.
Qed.

(** The first occurrence of a border-free text is replaced, and the
    scan goes on after it. *)
Lemma replace_first (a : ascii) (o new p x : string) :
  border_free (String a o) = true ->
  str_in (String a o) p = false ->
  replace (String a o) new (p ++ String a o ++ x)
  = p ++ new ++ replace (String a o) new x.
Proof.
  intros Hb. unfold replace. induction p as [|c p IH]; intros Hp.
  - change ("" ++ String a o ++ x) with (String a (o ++ x)).
    cbn [replace_go].
    change (String a (o ++ x)) with (String a o ++ x).
    rewrite startswith_app. cbn [String.length].
    rewrite replace_go_skip by (rewrite length_append; lia).
    now rewrite drop_app.
  - pose proof (border_free_first _ _ x Hb Hp) as Hs.
    apply str_in_false_cons in Hp as [_ Hp].
    change (String c p ++ String a o ++ x)
      with (String c (p ++ String a o ++ x)) in *.
    cbn [replace_go]. rewrite Hs by discriminate.
    rewrite (IH Hp). reflexivity.
Qed.

(** Every occurrence is replaced: a buffer cut at the occurrences of a
    border-free text is put together again around the new text. *)
Lemma replace_join (a : ascii) (o new : string) (parts : list string) :
  border_free (String a o) = true ->
  Forall (fun p => str_in (String a o) p = false) parts ->
  replace (String a o) new (join (String a o) parts) = join new parts.
Proof.
  intros Hb. induction parts as [|p [|q parts] IH]; intros Hf.
  - reflexivity.
  - apply replace_absent. now inversion Hf.
  - inversion Hf as [|? ? Hp Hf']; subst.
    change (join (String a o) (p :: q :: parts))
      with (p ++ String a o ++ join (String a o) (q :: parts)).
    rewrite (replace_first _ _ _ _ _ Hb Hp), (IH Hf'). reflexivity.
Qed.

Lemma take_startswith (t s : string) :
  startswith t s = true -> take (String.length t) s = t.
Proof.
  intros H. destruct (startswith_inv _ _ H) as [r ->]. apply take_app.
Qed.

Lemma match_at_lit (t s : string) :
  match_at [Lit t] s
  = if startswith t s then Some (String.length t + 0) else None.
Proof. simpl. now destruct (startswith t s). Qed.

(** [re.sub] with a literal pattern is [str.replace] with the template
    expanded at the literal. *)
Lemma sub_go_lit (a : ascii) (o : string) (t : list titem) (k : nat)
    (s : string) :
  sub_go [Lit (String a o)] t k s
  = replace_go (String a o) (expand_template t (String a o)) k s.
Proof.
  revert k; induction s as [|c s IH]; intros [|k]; try reflexivity.
  - cbn [sub_go replace_go]. rewrite match_at_lit.
    destruct (startswith (String a o) (String c s)) eqn:E.
    + cbn [String.length Nat.add]. rewrite Nat.add_0_r.
      change (S (String.length o)) with (String.length (String a o)).
      rewrite (take_startswith _ _ E), IH. reflexivity.
    + now rewrite IH.
  - cbn [sub_go replace_go]. apply IH.
Qed.

Lemma sub_lit (a : ascii) (o repl s : string) :
  Re.sub [Lit (String a o)] repl s
  = (fun t => replace (String a o) (expand_template t (String a o)) s)
      <$> parse_template repl.
Proof.
  unfold Re.sub. destruct (parse_template repl) as [t|]; simpl; [|reflexivity].
  now rewrite sub_go_lit.
Qed.

Lemma sub_literal (t repl s : string) :
  t <> "" ->
  Re.sub [Lit t] repl s
  = (fun tpl => replace t (expand_template tpl t) s) <$> parse_template repl.
Proof. destruct t; [contradiction | intros _; apply sub_lit]. Qed.

Lemma replace_every (t new : string) (parts : list string) :
  t <> "" -> border_free t = true ->
  Forall (fun p => str_in t p = false) parts ->
  replace t new (join t parts) = join new parts.
Proof. destruct t; [contradiction | intros _; apply replace_join]. Qed.

Lemma re_search_cons (r : regex) (c : ascii) (s : string) :
  re_search r (String c s)
  = match match_at r (String c s) with
    | Some _ => true
    | None => re_search r s
    end.
Proof.
  unfold re_search. cbn [Re.search].
  destruct (match_at r (String c s)); [reflexivity|].
  now destruct (Re.search r s) as [[i n]|].
Qed.

Lemma re_search_nil (r : regex) :
  re_search r "" = match match_at r "" with Some _ => true | None => false end.
Proof. unfold re_search. cbn [Re.search]. now destruct (match_at r ""). Qed.

(** Searching a literal is the substring test. *)
Lemma re_search_lit (t s : string) : re_search [Lit t] s = str_in t s.
Proof.
  induction s as [|c s IH].
  - rewrite re_search_nil, match_at_lit. simpl.
    now destruct (startswith t "").
  - rewrite re_search_cons, match_at_lit. cbn [str_in].
    destruct (startswith t (String c s)); [reflexivity | exact IH].
Qed.

(** A template without a backslash stands for itself. *)
Lemma parse_template_plain (s : string) :
  str_in "\" s = false -> parse_template s = Some (literal_template s).
Proof.
  unfold parse_template. induction s as [|c s IH]; intros H; [reflexivity|].
  apply str_in_false_cons in H as [H1 H2].
  cbn [parse_template_go literal_template].
  cbn [startswith] in H1. rewrite andb_true_r, Ascii.eqb_sym in H1.
  rewrite H1, (IH H2). reflexivity.
Qed.

Lemma expand_literal_template (s m : string) :
  expand_template (literal_template s) m = s.
Proof. induction s as [|c s IH]; simpl; [reflexivity | now rewrite IH]. Qed.

End ReplaceFacts.

(** * Facts about the log *)

Section LogFacts.

Lemma log_bind {A} (m : log_msg) (k : M A) :
  (log m >> k) = (m :: logged k, outcome k).
Proof. now destruct k. Qed.

Lemma ret_bind {A B} (a : A) (f : A -> M B) : bind (ret a) f = f a.
Proof. unfold bind, ret. now destruct (f a). Qed.

Lemma outcome_log_bind {A} (m : log_msg) (k : M A) :
  outcome (log m >> k) = outcome k.
Proof. now rewrite log_bind. Qed.

End LogFacts.

(** * The selection of the rule family and of the rule *)

Section Selection.

Lemma carries_token_truthy (d : gmap string pyval) :
  bool_decide (d <> ∅) && truthy (dict_get d "token")
  = carries_token (Some d).
Proof.
  unfold carries_token, dict_get.
  destruct (d !! "token") as [[|t]|] eqn:E; simpl;
    try apply andb_false_r.
  rewrite bool_decide_true; [reflexivity |].
  intros ->. now rewrite lookup_empty in E.
Qed.

Lemma select_family (LOCAL_MODE : bool) (code : string)
    (cfg : option (gmap string pyval)) :
  replace_ibm_quantum_config LOCAL_MODE code cfg
  = (if carries_token cfg then token_present code (default ∅ cfg)
     else if LOCAL_MODE then token_absent code
     else (log LogCloudNoToken >> ret code)).
Proof.
  destruct cfg as [d|]; [|now destruct LOCAL_MODE].
  unfold replace_ibm_quantum_config. rewrite carries_token_truthy.
  destruct (carries_token (Some d)); [reflexivity | now destruct LOCAL_MODE].
Qed.

Lemma first_match_applied (code : string) (d : gmap string pyval) :
  token_present code d = first_match_wins code d.
Proof.
  unfold token_present, first_match_wins, first_match, priority.
  cbn [List.find trigger].
  destruct (re_search aer_pattern code); [reflexivity |].
  destruct (re_search ibm_pattern_no_token code); [reflexivity |].
  destruct (re_search ibm_pattern_with_token code); [reflexivity |].
  destruct (str_in generic_call code); reflexivity.
Qed.

(** C1. [replace_ibm_quantum_config] applies the token-present rules,
    whatever the mode, exactly when the credential is present and
    carries a non-empty token; otherwise it applies the token-absent
    rules in local mode and returns the buffer unchanged in cloud mode;
    a credential without a token counts as no credential. *)
Theorem family_selection (LOCAL_MODE : bool) (code : string)
    (cfg : option (gmap string pyval)) :
  replace_ibm_quantum_config LOCAL_MODE code cfg
  = (if carries_token cfg then token_present code (default ∅ cfg)
     else if LOCAL_MODE then token_absent code
     else (log LogCloudNoToken >> ret code))
  /\ replace_ibm_quantum_config LOCAL_MODE code
       (if carries_token cfg then cfg else None)
     = replace_ibm_quantum_config LOCAL_MODE code cfg.
Proof.
  split; [apply select_family |].
  destruct (carries_token cfg) eqn:E; [reflexivity |].
  rewrite !select_family, E. reflexivity.
Qed.

(** C2. With a token the rules are tried in the order (a), (b), (c),
    (d); the first whose trigger matches is applied and no other; when
    none matches the buffer is returned unchanged. *)
Theorem token_present_first_match (code : string) (d : gmap string pyval) :
  token_present code d = first_match_wins code d.
Proof. exact (first_match_applied code d). Qed.

(** A buffer that holds both the simulator block and the remote block
    without credential: rule (a) is the one applied. *)
Example both_blocks_rule_a (d : gmap string pyval) :
  let code := aer_block ++ NL ++ ibm_block_no_token in
  trigger SimulatorBlock code = true
  /\ trigger RemoteNoCredential code = true
  /\ first_match code = Some SimulatorBlock
  /\ logged (token_present code d)
     = [LogConfigProvided (take 10 (str (dict_get d "token")));
        LogChannel (str (dict_get_default d "channel" (VStr "ibm_quantum")))
          (truthy (dict_get d "instance"))
          (if truthy (dict_get d "region")
           then str (dict_get d "region") else "none");
        LogFoundAer].
Proof.
  intros code. repeat split; try (vm_compute; reflexivity).
  rewrite first_match_applied. unfold first_match_wins.
  replace (first_match code) with (Some SimulatorBlock)
    by (vm_compute; reflexivity).
  rewrite !log_bind. cbn [found apply_rule].
  unfold re_sub. destruct (Re.sub _ _ _); reflexivity.
Qed.

End Selection.

(** * Every occurrence of a trigger is rewritten *)

Section EveryOccurrence.

Lemma str_in_join (t : string) (p q : string) (parts : list string) :
  str_in t (join t (p :: q :: parts)) = true.
Proof.
  change (join t (p :: q :: parts)) with (p ++ t ++ join t (q :: parts)).
  apply str_in_app.
Qed.

Lemma two_parts (parts : list string) :
  (2 <= List.length parts)%nat -> exists p q l, parts = p :: q :: l.
Proof.
  destruct parts as [|p [|q l]]; simpl; try lia. intros _. now exists p, q, l.
Qed.

(** Rule (a): every simulator block becomes the remote-service block,
    the template expanded at the block. *)
Lemma rule_a_every_occurrence (d : gmap string pyval) (parts : list string)
    (t : list titem) :
  parse_template (ibm_replacement (service_params_str d)) = Some t ->
  (2 <= List.length parts)%nat ->
  Forall (fun p => str_in aer_block p = false) parts ->
  outcome (token_present (join aer_block parts) d)
  = inr (join (expand_template t aer_block) parts).
Proof.
  intros Ht Hn Hf. destruct (two_parts _ Hn) as (p & q & l & ->).
  rewrite first_match_applied. unfold first_match_wins, first_match.
  cbn [priority List.find trigger]. unfold aer_pattern at 1.
  rewrite re_search_lit, str_in_join, !outcome_log_bind.
  cbn [found apply_rule]. unfold re_sub, aer_pattern.
  rewrite sub_literal, Ht by discriminate.
  cbn [fmap option_fmap option_map outcome ret snd].
  f_equal. apply replace_every; [discriminate | vm_compute; reflexivity | exact Hf].
Qed.

(** Rule (d): every bare call receives the parameter list. *)
Lemma rule_d_every_occurrence (d : gmap string pyval) (parts : list string) :
  first_match (join generic_call parts) = Some BareCall ->
  Forall (fun p => str_in generic_call p = false) parts ->
  outcome (token_present (join generic_call parts) d)
  = inr (join (generic_replacement (service_params_str d)) parts).
Proof.
  intros Hm Hf.
  rewrite first_match_applied. unfold first_match_wins.
  rewrite Hm, !outcome_log_bind. cbn [found apply_rule outcome ret snd].
  f_equal. apply replace_every; [discriminate | vm_compute; reflexivity | exact Hf].
Qed.

(** C10. The rule that fires rewrites every occurrence of its trigger:
    rule (a) every simulator block, rule (d) every bare call
    [QiskitRuntimeService()], wherever it stands in the buffer. *)
Theorem rewrites_every_occurrence (LOCAL_MODE : bool)
    (d : gmap string pyval) (t : list titem) (blocks calls : list string) :
  carries_token (Some d) = true ->
  parse_template (ibm_replacement (service_params_str d)) = Some t ->
  (2 <= List.length blocks)%nat ->
  Forall (fun p => str_in aer_block p = false) blocks ->
  first_match (join generic_call calls) = Some BareCall ->
  Forall (fun p => str_in generic_call p = false) calls ->
  outcome (replace_ibm_quantum_config LOCAL_MODE (join aer_block blocks)
             (Some d))
  = inr (join (expand_template t aer_block) blocks)
  /\ outcome (replace_ibm_quantum_config LOCAL_MODE
                (join generic_call calls) (Some d))
     = inr (join (generic_replacement (service_params_str d)) calls).
Proof.
  intros Hc Ht Hn Hb Hm Hf.
  rewrite !(select_family _ _ _), Hc. cbn [default].
  split.
  - now apply rule_a_every_occurrence.
  - now apply rule_d_every_occurrence.
Qed.

Lemma char_in_append (c : ascii) (a b : string) :
  str_in (String c "") (a ++ b)
  = str_in (String c "") a || str_in (String c "") b.
Proof.
  induction a as [|x a IH]; [now destruct b |].
  change (String x a ++ b) with (String x (a ++ b)).
  cbn [str_in startswith]. rewrite IH, !andb_true_r.
  now destruct (Ascii.eqb c x).
Qed.

(** With parameters free of backslashes the template is the
    remote-service block itself. *)
Lemma rule_a_plain (d : gmap string pyval) (parts : list string) :
  str_in "\" (service_params_str d) = false ->
  (2 <= List.length parts)%nat ->
  Forall (fun p => str_in aer_block p = false) parts ->
  outcome (token_present (join aer_block parts) d)
  = inr (join (ibm_replacement (service_params_str d)) parts).
Proof.
  intros Hs Hn Hf.
  assert (Hp : str_in "\" (ibm_replacement (service_params_str d)) = false).
  { unfold ibm_replacement. rewrite !char_in_append, Hs. reflexivity. }
  rewrite (rule_a_every_occurrence d parts _ (parse_template_plain _ Hp) Hn Hf).
  now rewrite expand_literal_template.
Qed.

Lemma rewrites_every_occurrence_witness :
  outcome (replace_ibm_quantum_config true (join aer_block demo_blocks)
             (Some demo_credential))
  = inr (join (ibm_replacement (service_params_str demo_credential))
           demo_blocks)
  /\ outcome (replace_ibm_quantum_config true
                (join generic_call demo_calls) (Some demo_credential))
     = inr (join (generic_replacement (service_params_str demo_credential))
              demo_calls).
Proof.
  rewrite <- (expand_literal_template
                (ibm_replacement (service_params_str demo_credential))
                aer_block).
  apply (rewrites_every_occurrence true demo_credential
           (literal_template
              (ibm_replacement (service_params_str demo_credential)))
           demo_blocks demo_calls).
  - vm_compute; reflexivity.
  - vm_compute; reflexivity.
  - simpl; lia.
  - repeat constructor.
  - vm_compute; reflexivity.
  - repeat constructor.
Defined.

End EveryOccurrence.

(** * The sandbox *)

Section SandboxFacts.

Context {store : Type}.
Variable exec : interpreter store.
Variable LOCAL_MODE : bool.

Lemma bind_inr {A B} (x : M A) (a : A) (f : A -> M B) :
  outcome x = inr a -> outcome (bind x f) = outcome (f a).
Proof.
  destruct x as [l [e|a']]; simpl; intros H; [discriminate |].
  injection H as ->. now destruct (f a).
Qed.

Lemma bind_inl {A B} (x : M A) (e : exn) (f : A -> M B) :
  outcome x = inl e -> bind x f = (logged x, inl e).
Proof.
  destruct x as [l [e'|a]]; simpl; intros H; [|discriminate].
  now injection H as ->.
Qed.

(** The sandbox on a buffer that the rewriter turns into [code']. *)
Lemma execute_rewritten (code code' : string)
    (cfg : option (gmap string pyval)) (σ : store) :
  outcome (replace_ibm_quantum_config LOCAL_MODE code cfg) = inr code' ->
  outcome (execute_python_code exec LOCAL_MODE code cfg σ).1.1
  = outcome (run_captured exec code' σ).1
  /\ (execute_python_code exec LOCAL_MODE code cfg σ).1.2
     = final (exec code' exec_globals σ)
  /\ (execute_python_code exec LOCAL_MODE code cfg σ).2
     = seconds (exec code' exec_globals σ).
Proof.
  intros H. unfold execute_python_code.
  set (rewritten := (log LogBeginExecution >> _)).
  assert (Hr : outcome rewritten = inr code').
  { subst rewritten. rewrite outcome_log_bind.
    rewrite (bind_inr _ _ _ H). now rewrite outcome_log_bind. }
  rewrite Hr. unfold run_captured. cbn [fst snd].
  repeat split. now apply bind_inr with (a := code').
Qed.

(** When the rewriter raises, nothing is executed. *)
Lemma execute_not_rewritten (code : string) (e : exn)
    (cfg : option (gmap string pyval)) (σ : store) :
  outcome (replace_ibm_quantum_config LOCAL_MODE code cfg) = inl e ->
  execute_python_code exec LOCAL_MODE code cfg σ
  = ((LogBeginExecution
        :: logged (replace_ibm_quantum_config LOCAL_MODE code cfg), inl e),
     σ, 0).
Proof.
  intros H. unfold execute_python_code.
  set (rewritten := (log LogBeginExecution >> _)).
  assert (Hr : rewritten
               = (LogBeginExecution
                    :: logged (replace_ibm_quantum_config LOCAL_MODE code cfg),
                  inl e)).
  { subst rewritten. rewrite log_bind. now rewrite (bind_inl _ _ _ H). }
  now rewrite Hr.
Qed.



(** An exception that is not an [Exception] leaves the sandbox. *)
Lemma base_exception_propagates (code code' message : string)
    (cfg : option (gmap string pyval)) (σ : store) :
  outcome (replace_ibm_quantum_config LOCAL_MODE code cfg) = inr code' ->
  ended (exec code' exec_globals σ) = Faulted false message ->
  outcome (execute_python_code exec LOCAL_MODE code cfg σ).1.1
  = inl (Raised false message).
Proof.
  intros Hr He. destruct (execute_rewritten _ _ _ σ Hr) as [-> _].
  unfold run_captured. rewrite He. cbn [fst].
  now rewrite !outcome_log_bind.
Qed.

End SandboxFacts.

(** * Runs of the sandbox on concrete buffers *)

Section SandboxRuns.







End SandboxRuns.

(** * Isolation between two requests *)

Section Isolation.

Import PyFragment.







End Isolation.

(** * The gateway *)

Section GatewayFacts.

Context {store : Type}.
Variable exec : interpreter store.
Variable LOCAL_MODE : bool.

(** A body that is not JSON: the handler of [JSONDecodeError] answers
    400; neither the rewriter nor the sandbox has run. *)
Lemma invalid_json_is_400 (host : string) (σ : store) :
  let r := run_program exec LOCAL_MODE
             {| client_host := host; body := None |} σ in
  r = (([LogReceived host], inl JSONDecodeError), σ)
  /\ status_of (outcome r.1) = 400.
Proof. split; reflexivity. Qed.

(** C6, at the body [{}]: the code field is missing, the lookup raises
    [KeyError], no handler is registered for it and the status is 500;
    neither the rewriter nor the sandbox has run. *)
Theorem missing_code_field_is_500 (host : string) (σ : store) :
  let r := run_program exec LOCAL_MODE
             {| client_host := host; body := Some empty_object |} σ in
  r = (([LogReceived host], inl (KeyError "input_value")), σ)
  /\ status_of (outcome r.1) = 500.
Proof. split; reflexivity. Qed.

Lemma run_program_rewriter_raises (host code : string) (e : exn)
    (data : gmap string string) (σ : store) :
  data !! "input_value" = Some code ->
  outcome (replace_ibm_quantum_config LOCAL_MODE code (ibm_config_of data))
  = inl e ->
  let r := run_program exec LOCAL_MODE
             {| client_host := host; body := Some data |} σ in
  outcome r.1 = inl e /\ r.2 = σ.
Proof.
  intros Hd He. unfold run_program. cbn [body client_host]. rewrite Hd.
  rewrite (execute_not_rewritten exec LOCAL_MODE _ _ _ σ He).
  cbn [fst snd]. rewrite !outcome_log_bind.
  split; [|reflexivity].
  change (timeout_seconds <? 0)%nat with false. reflexivity.
Qed.

(** C7, at a request whose token holds a backslash before a letter that
    is no escape, for a buffer with the simulator block: [re.sub] raises
    while compiling the replacement, outside the [try] of the sandbox;
    the exception reaches the server and the status is 500. *)
Theorem backslash_token_is_500 (host : string) (σ : store) :
  let r := run_program exec LOCAL_MODE
             {| client_host := host; body := Some backslash_token_body |} σ in
  outcome r.1 = inl ReError
  /\ status_of (outcome r.1) = 500
  /\ r.2 = σ.
Proof.
  assert (H : outcome (replace_ibm_quantum_config LOCAL_MODE aer_block
                         (ibm_config_of backslash_token_body))
              = inl ReError).
  { rewrite (select_family _ _ _).
    replace (ibm_config_of backslash_token_body)
      with (Some ({[ "token" := VStr "a\q"; "channel" := VStr "ibm_quantum";
                     "instance" := VNone; "region" := VNone ]}
                  : gmap string pyval))
      by (vm_compute; reflexivity).
    vm_compute. reflexivity. }
  destruct (run_program_rewriter_raises host aer_block ReError
              backslash_token_body σ) as [H1 H2];
    [vm_compute; reflexivity | exact H |].
  cbv zeta. rewrite H1, H2. repeat split.
Qed.

(** A request with the code field, when the rewriter does not raise and
    the execution ends or raises an [Exception]: the status is 200 and
    the body holds the text under [output], with every backslash,
    backslash, n turned into a line end; past the thirty minutes the
    text is the time-out message. *)
Lemma well_formed_response (host code code' : string)
    (data : gmap string string) (σ : store) :
  data !! "input_value" = Some code ->
  outcome (replace_ibm_quantum_config LOCAL_MODE code (ibm_config_of data))
  = inr code' ->
  (forall message, ended (exec code' exec_globals σ) <> Faulted false message) ->
  exists text,
    outcome (execute_python_code exec LOCAL_MODE code (ibm_config_of data) σ).1.1
    = inr text
    /\ outcome (run_program exec LOCAL_MODE
                  {| client_host := host; body := Some data |} σ).1
       = inr (JSONResponse 200
                {[ "output" :=
                     if (timeout_seconds
                         <? seconds (exec code' exec_globals σ))%nat
                     then timeout_message
                     else replace "\\n" NL text ]}).
Proof.
  intros Hd Hr Hb.
  destruct (execute_rewritten exec LOCAL_MODE _ _ _ σ Hr) as (Ho & Hs & Ht).
  assert (Hx : exists text,
             outcome (run_captured exec code' σ).1 = inr text /\ text <> "").
  { unfold run_captured. specialize (Hb).
    destruct (ended (exec code' exec_globals σ)) as [|[|] m] eqn:E;
      cbn [fst]; rewrite !outcome_log_bind.
    - eexists; split; [reflexivity |].
      destruct (String.eqb _ "") eqn:Q; [discriminate |].
      now apply String.eqb_neq in Q.
    - eexists; split; [reflexivity | discriminate].
    - now destruct (Hb m). }
  destruct Hx as (text & Hx & Hne). exists text.
  rewrite Ho. split; [exact Hx |].
  unfold run_program. cbn [body client_host]. rewrite Hd.
  destruct (execute_python_code exec LOCAL_MODE code (ibm_config_of data) σ)
    as [[executed σ'] elapsed] eqn:E.
  cbn [fst snd] in *. subst elapsed.
  rewrite !outcome_log_bind.
  destruct (timeout_seconds <? seconds (exec code' exec_globals σ))%nat.
  - destruct executed as [l o]. reflexivity.
  - rewrite Hx in Ho.
    erewrite bind_inr; [|erewrite bind_inr; [|exact Ho]; now rewrite outcome_log_bind].
    rewrite outcome_log_bind. cbn [outcome ret snd].
    apply String.eqb_neq in Hne. now rewrite Hne.
Qed.

(** Past the thirty minutes the response is still a 200; its text is
    the time-out message. *)
Example sleeping_buffer_times_out :
  outcome (run_program PyFragment.exec true
             {| client_host := "client";
                body := Some {[ "input_value" := sleeps_too_long ]} |} ∅).1
  = inr (JSONResponse 200
           {[ "output" :=
                "Error: Code execution timed out after 30 minutes." ]}).
Proof. vm_compute. reflexivity. Qed.

End GatewayFacts.

(** * Lines, markers and option lines *)

Section LineFacts.

Lemma one_line_cons (c : ascii) (l : string) :
  one_line (String c l) = true -> c <> "010"%char /\ one_line l = true.
Proof.
  unfold one_line. cbn [all_chars]. intros H.
  apply andb_prop in H as [Hc Hl]. split; [|exact Hl].
  unfold not_newline in Hc. apply negb_true_iff, Ascii.eqb_neq in Hc.
  exact Hc.
Qed.

Lemma line_end_cons (c : ascii) (s : string) :
  c <> "010"%char -> line_end (String c s) = S <$> line_end s.
Proof.
  intros Hc. cbn [line_end]. apply Ascii.eqb_neq in Hc. now rewrite Hc.
Qed.

Lemma line_end_app (l r : string) :
  one_line l = true -> line_end (l ++ NL ++ r) = Some (S (String.length l)).
Proof.
  induction l as [|c l IH]; intros H; [reflexivity |].
  apply one_line_cons in H as [Hc Hl].
  change (String c l ++ NL ++ r) with (String c (l ++ NL ++ r)).
  rewrite (line_end_cons _ _ Hc), (IH Hl). reflexivity.
Qed.

Lemma line_end_none (l : string) : one_line l = true -> line_end l = None.
Proof.
  induction l as [|c l IH]; intros H; [reflexivity |].
  apply one_line_cons in H as [Hc Hl].
  rewrite (line_end_cons _ _ Hc), (IH Hl). reflexivity.
Qed.

(** The lazy [.*?\n] stops at the first line end. *)
Lemma lazy_to_line_end (s : string) :
  lazy_star not_newline (match_at [Lit NL]) s = line_end s.
Proof.
  induction s as [|c s IH]; [reflexivity |].
  cbn [lazy_star line_end]. rewrite match_at_lit. cbn [startswith NL].
  unfold not_newline at 1. rewrite (Ascii.eqb_sym "010" c).
  destruct (Ascii.eqb c "010"); [reflexivity |]. cbn [andb negb].
  now rewrite IH.
Qed.

Lemma digit_not_newline (c : ascii) : digit c = true -> c <> "010"%char.
Proof. intros H ->. discriminate. Qed.

(** The greedy [\d+] gives back nothing the rest of the line needs. *)
Lemma greedy_digits_line_end (k : string -> option nat) (s : string) :
  (forall x, k x = line_end x) ->
  greedy_star digit k s = line_end s.
Proof.
  intros Hk. induction s as [|c s IH]; cbn [greedy_star]; [apply Hk |].
  destruct (digit c) eqn:Hd; [|apply Hk].
  rewrite IH, Hk, (line_end_cons _ _ (digit_not_newline _ Hd)).
  now destruct (line_end s).
Qed.

Lemma match_at_marker (s : string) : match_at step_marker s = marker_at s.
Proof.
  unfold step_marker, marker_at. cbn [match_at].
  destruct (startswith "## STEP " s); [|reflexivity].
  change (String.length "## STEP ") with 8.
  destruct (drop 8 s) as [|c s']; [reflexivity |].
  destruct (digit c); [|reflexivity].
  rewrite greedy_digits_line_end by (intros x; apply lazy_to_line_end).
  now destruct (line_end s').
Qed.

Lemma marker_starts (s : string) (n : nat) :
  match_at step_marker s = Some n -> startswith marker_start s = true.
Proof.
  rewrite match_at_marker. unfold marker_at, marker_start.
  now destruct (startswith "## STEP " s).
Qed.

Lemma marker_needs_start (s : string) :
  startswith marker_start s = false -> match_at step_marker s = None.
Proof.
  rewrite match_at_marker. unfold marker_at, marker_start. now intros ->.
Qed.

(** A marker never matches the empty string. *)
Lemma match_at_marker_pos (s : string) (n : nat) :
  match_at step_marker s = Some n -> (9 < n)%nat.
Proof.
  rewrite match_at_marker. unfold marker_at.
  destruct (startswith "## STEP " s); [|discriminate].
  destruct (drop 8 s) as [|c s']; [discriminate |].
  destruct (digit c); [|discriminate].
  destruct (line_end s') as [k|] eqn:E; [|discriminate].
  simpl. intros [= <-].
  destruct s' as [|d s']; [discriminate |]. cbn [line_end] in E.
  destruct (Ascii.eqb d "010"); [injection E as <-; lia |].
  destruct (line_end s'); [injection E as <-; lia | discriminate].
Qed.

(** The header line: the header, more text on the line, the line end. *)
Lemma marker_at_header (t r : string) :
  one_line t = true ->
  match_at step_marker (header ++ t ++ NL ++ r)
  = Some (String.length (header ++ t ++ NL)).
Proof.
  intros Ht. rewrite match_at_marker. unfold marker_at, header.
  change ("## STEP 0 : IBM Quantum Config" ++ t ++ NL ++ r)
    with ("## STEP " ++ String "0" (" : IBM Quantum Config" ++ t ++ NL ++ r)).
  rewrite startswith_app.
  change 8 with (String.length "## STEP ") at 1. rewrite drop_app.
  cbn [digit nat_of_ascii Nat.leb andb].
  rewrite <- append_assoc, line_end_app.
  - cbn [fmap option_fmap option_map]. f_equal.
    rewrite !length_append. simpl. lia.
  - unfold one_line in *. clear r.
    change (all_chars not_newline (" : IBM Quantum Config" ++ t) = true).
    now cbn.
Qed.

End LineFacts.

(** * The removal of the option lines *)

Section StripFacts.

Lemma one_line_app (a b : string) :
  one_line (a ++ b) = one_line a && one_line b.
Proof.
  unfold one_line. induction a as [|c a IH]; [reflexivity |].
  change (String c a ++ b) with (String c (a ++ b)).
  cbn [all_chars]. now rewrite IH, andb_assoc.
Qed.

Lemma one_line_drop (n : nat) (l : string) :
  one_line l = true -> one_line (drop n l) = true.
Proof.
  revert l; induction n as [|n IH]; intros [|c l] H; try exact H.
  apply one_line_cons in H as [_ H]. now apply IH.
Qed.

(** A text without a line end starts a buffer when it starts its first
    line. *)
Lemma startswith_first_line (t l r : string) :
  one_line t = true ->
  startswith t (l ++ NL ++ r) = startswith t l.
Proof.
  revert l; induction t as [|a t IH]; intros l Ht; [reflexivity |].
  apply one_line_cons in Ht as [Ha Ht].
  destruct l as [|c l].
  - cbn. apply Ascii.eqb_neq in Ha. now rewrite Ha.
  - change (String c l ++ NL ++ r) with (String c (l ++ NL ++ r)).
    cbn [startswith]. now rewrite (IH _ Ht).
Qed.

Lemma match_at_options_cons (c : ascii) (s : string) :
  match_at options_line (String c s)
  = match options_tail (String c s) with
    | Some n => Some n
    | None =>
        if not_newline c then S <$> match_at options_line s else None
    end.
Proof.
  unfold options_line, options_tail. cbn [match_at lazy_star].
  change (String.length ".options.") with 9.
  destruct (startswith ".options." (String c s)); [|reflexivity].
  now rewrite lazy_to_line_end.
Qed.

Lemma match_at_options_nil : match_at options_line "" = None.
Proof. reflexivity. Qed.

Lemma options_tail_line (l r : string) :
  one_line l = true ->
  options_tail (l ++ NL ++ r)
  = if startswith ".options." l then Some (S (String.length l)) else None.
Proof.
  intros Hl. unfold options_tail.
  rewrite startswith_first_line by reflexivity.
  destruct (startswith ".options." l) eqn:E; [|reflexivity].
  destruct (startswith_inv _ _ E) as [l' ->].
  rewrite one_line_app in Hl. apply andb_prop in Hl as [_ Hl].
  rewrite append_assoc.
  change (drop 9) with (drop (String.length ".options.")). rewrite drop_app.
  rewrite (line_end_app _ _ Hl), length_append. reflexivity.
Qed.

(** An option line matches from its start to its line end; no other
    line matches at its start. *)
Lemma match_at_options_line (l r : string) :
  one_line l = true ->
  match_at options_line (l ++ NL ++ r)
  = if str_in ".options." l then Some (S (String.length l)) else None.
Proof.
  induction l as [|c l IH]; intros Hl; [reflexivity |].
  change (String c l ++ NL ++ r) with (String c (l ++ NL ++ r)).
  rewrite match_at_options_cons.
  change (String c (l ++ NL ++ r)) with (String c l ++ NL ++ r).
  rewrite (options_tail_line _ _ Hl). cbn [str_in].
  destruct (startswith ".options." (String c l)); [reflexivity |].
  apply one_line_cons in Hl as [Hc Hl].
  unfold not_newline. apply Ascii.eqb_neq in Hc. rewrite Hc.
  cbn [negb orb]. rewrite (IH Hl).
  now destruct (str_in ".options." l).
Qed.

Lemma match_at_options_one_line (l : string) :
  one_line l = true -> match_at options_line l = None.
Proof.
  induction l as [|c l IH]; intros Hl; [reflexivity |].
  rewrite match_at_options_cons. unfold options_tail.
  rewrite (line_end_none _ (one_line_drop 9 _ Hl)).
  apply one_line_cons in Hl as [Hc Hl]. rewrite (IH Hl).
  destruct (startswith ".options." (String c l)), (not_newline c);
    reflexivity.
Qed.

Lemma sub_go_skip (r : regex) (t : list titem) (k : nat) (s : string) :
  (k <= String.length s)%nat -> sub_go r t k s = sub_go r t 0 (drop k s).
Proof.
  revert s; induction k as [|k IH]; intros s Hk.
  - now rewrite drop_0.
  - destruct s as [|c s]; simpl in Hk; [lia |].
    cbn [sub_go drop]. apply IH. lia.
Qed.

Lemma strip_options_cons (c : ascii) (s : string) :
  match_at options_line (String c s) = None ->
  strip_options (String c s) = String c (strip_options s).
Proof. unfold strip_options. cbn [sub_go]. now intros ->. Qed.

(** Line by line: an option line goes, any other line stays. *)
Lemma strip_options_line (l r : string) :
  one_line l = true ->
  strip_options (l ++ NL ++ r)
  = (if str_in ".options." l then "" else l ++ NL) ++ strip_options r.
Proof.
  intros Hl.
  destruct (str_in ".options." l) eqn:E.
  - destruct l as [|c l]; [discriminate |].
    pose proof (match_at_options_line _ r Hl) as Hm. rewrite E in Hm.
    change (String c l ++ NL ++ r) with (String c (l ++ NL ++ r)) in *.
    unfold strip_options. cbn [sub_go]. rewrite Hm.
    cbn [expand_template String.length].
    rewrite <- append_assoc.
    rewrite sub_go_skip by (rewrite !length_append; simpl; lia).
    replace (S (String.length l)) with (String.length (l ++ NL))
      by (rewrite length_append; simpl; lia).
    now rewrite drop_app.
  - induction l as [|c l IH].
    + change ("" ++ NL ++ r) with (String "010" r).
      rewrite strip_options_cons; [reflexivity |].
      exact (match_at_options_line "" r eq_refl).
    + change (String c l ++ NL ++ r) with (String c (l ++ NL ++ r)).
      rewrite strip_options_cons.
      * apply str_in_false_cons in E as [_ E].
        apply one_line_cons in Hl as [_ Hl].
        now rewrite (IH Hl E).
      * change (String c (l ++ NL ++ r)) with (String c l ++ NL ++ r).
        now rewrite (match_at_options_line _ r Hl), E.
Qed.

(** A last line without a line end stays, whatever it holds. *)
Lemma strip_options_one_line (l : string) :
  one_line l = true -> strip_options l = l.
Proof.
  induction l as [|c l IH]; intros Hl; [reflexivity |].
  rewrite strip_options_cons by now apply match_at_options_one_line.
  apply one_line_cons in Hl as [_ Hl]. now rewrite (IH Hl).
Qed.

(** Induction line by line. *)
Lemma line_ind (P : string -> Prop) :
  (forall l, one_line l = true -> P l) ->
  (forall l r, one_line l = true -> P r -> P (l ++ NL ++ r)) ->
  forall s, P s.
Proof.
  intros Hlast Hline s.
  assert (H : forall l0, one_line l0 = true -> P (l0 ++ s)).
  { induction s as [|c s IH]; intros l0 Hl0.
    - rewrite append_nil_r. now apply Hlast.
    - destruct (Ascii.eqb c "010") eqn:Hc.
      + apply Ascii.eqb_eq in Hc. subst c.
        apply (Hline l0 s Hl0). exact (IH "" eq_refl).
      + replace (l0 ++ String c s) with ((l0 ++ String c "") ++ s)
          by now rewrite append_assoc.
        apply IH. rewrite one_line_app, Hl0. unfold one_line. cbn.
        unfold not_newline. now rewrite Hc. }
  exact (H "" eq_refl).
Qed.

Lemma strip_options_idempotent (s : string) :
  strip_options (strip_options s) = strip_options s.
Proof.
  induction s as [l Hl | l r Hl IH] using line_ind.
  - now rewrite !(strip_options_one_line _ Hl).
  - rewrite (strip_options_line _ _ Hl).
    destruct (str_in ".options." l) eqn:E; [exact IH |].
    rewrite !append_assoc, (strip_options_line _ _ Hl), E, IH.
    now rewrite append_assoc.
Qed.

Lemma strip_options_last_line (l : string) :
  one_line l = true ->
  strip_options (l ++ NL) = if str_in ".options." l then "" else l ++ NL.
Proof.
  intros Hl.
  replace (strip_options (l ++ NL)) with (strip_options (l ++ NL ++ ""))
    by now rewrite append_nil_r.
  rewrite (strip_options_line _ _ Hl). apply append_nil_r.
Qed.

(** The removal works on whole lines: it splits at a line end. *)
Lemma strip_options_app (a b : string) :
  strip_options (a ++ NL ++ b)
  = strip_options (a ++ NL) ++ strip_options b.
Proof.
  induction a as [l Hl | l r Hl IH] using line_ind.
  - now rewrite (strip_options_line _ _ Hl), (strip_options_last_line _ Hl).
  - rewrite !append_assoc, !(strip_options_line _ _ Hl), IH.
    now rewrite append_assoc.
Qed.

End StripFacts.

(** * The split into sections *)

Section SplitFacts.

Lemma split_go_skip (r : regex) (k : nat) (s : string) :
  (k <= String.length s)%nat -> split_go r k s = split_go r 0 (drop k s).
Proof.
  revert s; induction k as [|k IH]; intros s Hk.
  - now rewrite drop_0.
  - destruct s as [|c s]; simpl in Hk; [lia |].
    cbn [split_go drop]. apply IH. lia.
Qed.

Lemma split_go_no_match (r : regex) (c : ascii) (s : string) :
  match_at r (String c s) = None ->
  split_go r 0 (String c s)
  = (String c (split_go r 0 s).1, (split_go r 0 s).2).
Proof.
  intros H. cbn [split_go]. rewrite H. now destruct (split_go r 0 s).
Qed.

Lemma split_go_match (r : regex) (m x : string) :
  m <> "" ->
  match_at r (m ++ x) = Some (String.length m) ->
  split_go r 0 (m ++ x)
  = ("", m :: (split_go r 0 x).1 :: (split_go r 0 x).2).
Proof.
  destruct m as [|c m]; [contradiction |]. intros _ H.
  change (String c m ++ x) with (String c (m ++ x)) in *.
  cbn [split_go]. rewrite H. cbn [String.length].
  rewrite split_go_skip by (rewrite length_append; lia).
  rewrite drop_app. destruct (split_go r 0 x) as [h t]. cbn [fst snd].
  change (S (String.length m)) with (String.length (String c m)).
  change (String c (m ++ x)) with (String c m ++ x).
  now rewrite take_app.
Qed.

(** What the split yields, joined again, is the buffer. *)
Lemma split_go_concat (r : regex) (k : nat) (s : string) :
  (split_go r k s).1 ++ concat (split_go r k s).2 = drop k s.
Proof.
  revert k; induction s as [|c s IH]; intros [|k]; try reflexivity.
  - cbn [split_go drop].
    destruct (match_at r (String c s)) as [[|n]|].
    + specialize (IH 0). destruct (split_go r 0 s) as [h t].
      cbn [fst snd] in *. rewrite drop_0 in IH.
      change (String c h ++ concat t) with (String c (h ++ concat t)).
      now rewrite IH.
    + specialize (IH n). destruct (split_go r n s) as [h t].
      cbn [fst snd] in *.
      change (concat (take (S n) (String c s) :: h :: t))
        with (take (S n) (String c s) ++ h ++ concat t).
      change ("" ++ ?x) with x. rewrite IH.
      change (take (S n) (String c s)) with (String c (take n s)).
      change (String c (take n s) ++ drop n s)
        with (String c (take n s ++ drop n s)).
      now rewrite take_drop.
    + specialize (IH 0). destruct (split_go r 0 s) as [h t].
      cbn [fst snd] in *. rewrite drop_0 in IH.
      change (String c h ++ concat t) with (String c (h ++ concat t)).
      now rewrite IH.
  - cbn [split_go drop]. apply IH.
Qed.

Lemma split_concat (r : regex) (s : string) : concat (Re.split r s) = s.
Proof.
  unfold Re.split. pose proof (split_go_concat r 0 s) as H.
  destruct (split_go r 0 s) as [h t]. rewrite drop_0 in H. exact H.
Qed.

(** The split yields an odd number of elements: the text before the
    first marker, then a body for every marker. *)
Lemma split_go_even (r : regex) (k : nat) (s : string) :
  Nat.even (List.length (split_go r k s).2) = true.
Proof.
  revert k; induction s as [|c s IH]; intros [|k]; try reflexivity.
  - cbn [split_go].
    destruct (match_at r (String c s)) as [[|n]|].
    + specialize (IH 0). now destruct (split_go r 0 s).
    + specialize (IH n). now destruct (split_go r n s).
    + specialize (IH 0). now destruct (split_go r 0 s).
  - cbn [split_go]. apply IH.
Qed.

(** With a body for every marker the loop never runs off the list. *)
Lemma replace_step0_total (n : nat) (l : list string) :
  List.length l = 2 * n -> exists l', replace_step0 l = inr l'.
Proof.
  revert l; induction n as [|n IH]; intros l Hl.
  - destruct l; [now exists [] | discriminate].
  - destruct l as [|m [|b l]]; simpl in Hl; try lia.
    cbn [replace_step0].
    destruct (str_in "STEP 0" m && str_in "IBM Quantum Config" m);
      [eauto |].
    destruct (IH l) as [l' ->]; [lia | eauto].
Qed.

(** Before the first marker: text that holds no [## STEP ] is not
    split. *)
Lemma split_go_before (p x : string) :
  str_in marker_start p = false ->
  x = "" \/ startswith marker_start x = true ->
  split_go step_marker 0 (p ++ x)
  = (p ++ (split_go step_marker 0 x).1, (split_go step_marker 0 x).2).
Proof.
  intros Hp Hx. induction p as [|c p IH].
  - change ("" ++ x) with x. now destruct (split_go step_marker 0 x).
  - change (String c p ++ x) with (String c (p ++ x)).
    rewrite split_go_no_match.
    + apply str_in_false_cons in Hp as [_ Hp]. now rewrite (IH Hp).
    + apply marker_needs_start.
      change (String c (p ++ x)) with (String c p ++ x).
      destruct Hx as [-> | Hx].
      * rewrite append_nil_r. now apply str_in_false_cons in Hp as [Hp _].
      * destruct (startswith_inv _ _ Hx) as [x' ->].
        apply border_free_first; [reflexivity | exact Hp | discriminate].
Qed.

Lemma split_go_at_marker (x : string) :
  x = "" \/ match_at step_marker x <> None ->
  (split_go step_marker 0 x).1 = "".
Proof.
  intros [-> | H]; [reflexivity |].
  destruct (match_at step_marker x) as [n|] eqn:E; [|contradiction].
  pose proof (match_at_marker_pos _ _ E) as Hn.
  destruct x as [|c x]; [reflexivity |].
  cbn [split_go]. rewrite E.
  destruct n as [|n]; [lia |]. now destruct (split_go step_marker n x).
Qed.

End SplitFacts.

(** * The rules applied without a token *)

Section TokenAbsent.

Lemma re_sub_options (s : string) :
  re_sub options_line "" s = ret (strip_options s).
Proof. reflexivity. Qed.

Lemma re_sub_aer_block (r : regex) (s : string) :
  exists s', re_sub r aer_block s = ret s'.
Proof.
  unfold re_sub, Re.sub.
  destruct (parse_template aer_block) as [t|] eqn:E;
    [|vm_compute in E; discriminate].
  simpl. eauto.
Qed.

Lemma header_has_marker (y : string) :
  startswith marker_start (header ++ y) = true.
Proof.
  change (header ++ y) with (marker_start ++ "0 : IBM Quantum Config" ++ y).
  apply startswith_app.
Qed.

Lemma header_names_section (y : string) :
  str_in "STEP 0" (header ++ y) && str_in "IBM Quantum Config" (header ++ y)
  = true.
Proof.
  apply andb_true_intro; split.
  - change (header ++ y)
      with ("## " ++ "STEP 0" ++ " : IBM Quantum Config" ++ y).
    apply str_in_app.
  - change (header ++ y)
      with ("## STEP 0 : " ++ "IBM Quantum Config" ++ y).
    apply str_in_app.
Qed.

(** The split of a buffer of the shape: text without marker, the header
    line, a body without marker, and then the end of the buffer or the
    next marker. *)
Lemma split_sections (pre t body rest : string) :
  str_in marker_start pre = false ->
  one_line t = true ->
  str_in marker_start body = false ->
  rest = "" \/ match_at step_marker rest <> None ->
  exists tail,
    Re.split step_marker (pre ++ (header ++ t ++ NL) ++ body ++ rest)
    = pre :: (header ++ t ++ NL) :: body :: tail
    /\ concat tail = rest.
Proof.
  intros Hpre Ht Hbody Hrest.
  assert (Hstart : rest = "" \/ startswith marker_start rest = true).
  { destruct Hrest as [-> | H]; [now left | right].
    destruct (match_at step_marker rest) as [n|] eqn:E; [|contradiction].
    exact (marker_starts _ _ E). }
  exists (split_go step_marker 0 rest).2. split.
  - unfold Re.split.
    rewrite (split_go_before pre _ Hpre)
      by (right; rewrite !append_assoc; apply header_has_marker).
    rewrite split_go_match.
    + rewrite (split_go_before body rest Hbody Hstart).
      rewrite (split_go_at_marker _ Hrest). cbn [fst snd].
      now rewrite !append_nil_r.
    + discriminate.
    + rewrite !append_assoc. now rewrite (marker_at_header _ _ Ht).
  - pose proof (split_go_concat step_marker 0 rest) as H.
    rewrite (split_go_at_marker _ Hrest), drop_0 in H. exact H.
Qed.

(** The section path on such a buffer: the body of the configuration
    section becomes the simulator block, everything else stays in
    place, and the option lines are removed. *)
Lemma token_absent_sections (pre t body rest : string) :
  str_in marker_start pre = false ->
  one_line t = true ->
  str_in marker_start body = false ->
  rest = "" \/ match_at step_marker rest <> None ->
  token_absent (pre ++ (header ++ t ++ NL) ++ body ++ rest)
  = ([LogLocalNoToken; LogFoundHeader; LogRemovingOptions],
     inr (strip_options
            (pre ++ (header ++ t ++ NL) ++ step0_body ++ rest))).
Proof.
  intros Hpre Ht Hbody Hrest.
  destruct (split_sections _ _ _ _ Hpre Ht Hbody Hrest) as (tail & Hs & Hc).
  unfold token_absent. unfold ibm_config_pattern.
  rewrite re_search_lit.
  replace (str_in "## STEP 0 : IBM Quantum Config"
             (pre ++ (header ++ t ++ NL) ++ body ++ rest)) with true
    by (rewrite !append_assoc; symmetry; apply (str_in_app header)).
  rewrite Hs. cbn [List.length Nat.leb].
  unfold rewrite_sections. cbn [List.tl List.firstn replace_step0].
  rewrite header_names_section. cbn [List.app].
  rewrite re_sub_options, !log_bind. cbn [logged outcome ret fst snd].
  do 3 f_equal.
  change (concat (pre :: (header ++ t ++ NL) :: step0_body :: tail))
    with (pre ++ (header ++ t ++ NL) ++ step0_body ++ concat tail).
  now rewrite Hc.
Qed.

Lemma try_patterns_total (n : nat) (patterns : list regex) (code : string) :
  exists s, outcome (try_patterns n patterns code) = inr s.
Proof.
  revert n; induction patterns as [|p ps IH]; intros n; cbn [try_patterns].
  - rewrite outcome_log_bind. now exists code.
  - destruct (re_search p code); [|apply IH].
    rewrite outcome_log_bind.
    destruct (re_sub_aer_block p code) as [s' ->].
    rewrite ret_bind, outcome_log_bind, re_sub_options. now eexists.
Qed.

(** Without a token the rewriter never raises. *)
Lemma token_absent_total (code : string) :
  exists s, outcome (token_absent code) = inr s.
Proof.
  unfold token_absent. rewrite outcome_log_bind.
  destruct (re_search ibm_config_pattern code);
    [|apply try_patterns_total].
  rewrite outcome_log_bind.
  destruct (3 <=? List.length (Re.split step_marker code))%nat;
    [|apply try_patterns_total].
  unfold rewrite_sections, Re.split.
  pose proof (split_go_even step_marker 0 code) as He.
  destruct (split_go step_marker 0 code) as [h t]. cbn [fst snd List.tl] in *.
  apply Nat.even_spec in He as [n Hn].
  destruct (replace_step0_total n t Hn) as [l' ->].
  rewrite outcome_log_bind, re_sub_options. now eexists.
Qed.





End TokenAbsent.

(** * Rewriting twice *)

Section TwiceFacts.


(** A text without line end occurs in a buffer when it occurs in its
    first line or after it. *)
Lemma str_in_lines (t l r : string) :
  one_line t = true -> t <> "" ->
  str_in t (l ++ NL ++ r) = str_in t l || str_in t r.
Proof.
  intros Ht Hne. induction l as [|c l IH].
  - change ("" ++ NL ++ r) with (String "010" r). cbn [str_in].
    destruct t as [|a t]; [contradiction |].
    apply one_line_cons in Ht as [Ha _]. cbn [startswith].
    apply Ascii.eqb_neq in Ha. now rewrite Ha.
  - change (String c l ++ NL ++ r) with (String c (l ++ NL ++ r)).
    cbn [str_in]. rewrite IH.
    change (String c (l ++ NL ++ r)) with (String c l ++ NL ++ r).
    rewrite (startswith_first_line _ _ _ Ht). now rewrite orb_assoc.
Qed.

(** The removal of lines brings no such text in. *)
Lemma strip_options_keeps_absent (t s : string) :
  one_line t = true -> t <> "" ->
  str_in t s = false -> str_in t (strip_options s) = false.
Proof.
  intros Ht Hne. induction s as [l Hl | l r Hl IH] using line_ind.
  - now rewrite (strip_options_one_line _ Hl).
  - rewrite (str_in_lines _ _ _ Ht Hne). intros H.
    apply orb_false_elim in H as [H1 H2].
    rewrite (strip_options_line _ _ Hl).
    destruct (str_in ".options." l); [now apply IH |].
    now rewrite append_assoc, (str_in_lines _ _ _ Ht Hne), H1, (IH H2).
Qed.





End TwiceFacts.

(** * Idempotence, where it holds *)

Section Idempotence.




End Idempotence.

(** * The rewriter with a credential free of backslashes *)

Section PlainCredential.

Lemma plain_value_str (v : pyval) :
  plain_value v = true -> str_in "\" (str v) = false.
Proof. unfold plain_value. now intros H%negb_true_iff. Qed.

Lemma service_params_plain (d : gmap string pyval) :
  plain_credential d = true -> str_in "\" (service_params_str d) = false.
Proof.
  unfold plain_credential. intros H.
  apply andb_prop in H as [H Hr]. apply andb_prop in H as [H Hi].
  apply andb_prop in H as [Hc Ht].
  apply plain_value_str in Hc, Ht, Hi, Hr.
  unfold service_params_str, service_params.
  destruct (truthy (dict_get d "instance")), (truthy (dict_get d "region"));
    cbn [List.app join];
    rewrite !char_in_append, ?Hc, ?Ht, ?Hi, ?Hr; reflexivity.
Qed.

Lemma ibm_replacement_plain (params : string) :
  str_in "\" params = false -> str_in "\" (ibm_replacement params) = false.
Proof.
  intros H. unfold ibm_replacement. rewrite !char_in_append, H. reflexivity.
Qed.

Lemma re_sub_plain (r : regex) (repl s : string) :
  str_in "\" repl = false ->
  re_sub r repl s = ret (sub_go r (literal_template repl) 0 s).
Proof.
  intros H. unfold re_sub, Re.sub. now rewrite (parse_template_plain _ H).
Qed.

Lemma token_present_plain_total (code : string) (d : gmap string pyval) :
  plain_credential d = true ->
  exists s, outcome (token_present code d) = inr s.
Proof.
  intros H. apply service_params_plain, ibm_replacement_plain in H.
  rewrite first_match_applied. unfold first_match_wins.
  rewrite !outcome_log_bind.
  destruct (first_match code) as [[| | |]|]; rewrite outcome_log_bind;
    cbn [apply_rule]; rewrite ?(re_sub_plain _ _ _ H); eauto.
Qed.

(** X1. The rewriter raises only over a backslash in the credential: when
    channel, token, instance and region hold none, it returns a buffer,
    whatever the buffer, the credential and the mode. *)
Theorem rewriter_total_without_backslash (LOCAL_MODE : bool) (code : string)
    (cfg : option (gmap string pyval)) :
  plain_credential (default ∅ cfg) = true ->
  exists s, outcome (replace_ibm_quantum_config LOCAL_MODE code cfg) = inr s.
Proof.
  intros H. rewrite select_family.
  destruct (carries_token cfg); [now apply token_present_plain_total |].
  destruct LOCAL_MODE; [apply token_absent_total |].
  rewrite outcome_log_bind. now exists code.
Qed.

Lemma rewriter_total_without_backslash_witness :
  exists s,
    outcome (replace_ibm_quantum_config true block_and_call
               (Some demo_credential)) = inr s.
Proof.
  apply (rewriter_total_without_backslash true block_and_call
           (Some demo_credential)).
  vm_compute. reflexivity.
Defined.

End PlainCredential.

(** * Rules (b) and (c) of the token-present family *)

Section InjectCredential.

Lemma str_in_inside (t a x b : string) :
  str_in t x = true -> str_in t (a ++ x ++ b) = true.
Proof.
  intros H. destruct (str_in_inv _ _ H) as (u & v & ->).
  rewrite !append_assoc, <- (append_assoc a u). apply str_in_app.
Qed.

Lemma str_in_self (t : string) : str_in t t = true.
Proof. apply str_in_startswith. rewrite <- (append_nil_r t) at 2. apply startswith_app. Qed.

Lemma str_in_join_sep (t sep : string) (p q : string) (l : list string) :
  str_in t (join sep (q :: l)) = true ->
  str_in t (join sep (p :: q :: l)) = true.
Proof.
  intros H. change (join sep (p :: q :: l)) with (p ++ sep ++ join sep (q :: l)).
  rewrite <- append_assoc, <- (append_nil_r (join sep (q :: l))).
  now apply str_in_inside.
Qed.

Lemma str_in_join_head (t sep : string) (l : list string) :
  str_in t (join sep (t :: l)) = true.
Proof.
  destruct l as [|q l]; [apply str_in_self |].
  change (join sep (t :: q :: l)) with ("" ++ t ++ sep ++ join sep (q :: l)).
  apply str_in_app.
Qed.

(** The parameter list holds the channel and the token. *)
Lemma service_params_hold (d : gmap string pyval) :
  str_in ("channel=" ++ DQ
          ++ str (dict_get_default d "channel" (VStr "ibm_quantum")) ++ DQ)
         (service_params_str d) = true
  /\ str_in ("token=" ++ DQ ++ str (dict_get d "token") ++ DQ)
            (service_params_str d) = true.
Proof.
  unfold service_params_str, service_params. cbn [List.app]. split.
  - apply str_in_join_head.
  - apply str_in_join_sep, str_in_join_head.
Qed.

Lemma str_in_join_piece (t new : string) (p q : string) (l : list string) :
  str_in t new = true -> str_in t (join new (p :: q :: l)) = true.
Proof.
  intros H. change (join new (p :: q :: l)) with (p ++ new ++ join new (q :: l)).
  now apply str_in_inside.
Qed.

Lemma str_in_app_r (t x y : string) :
  str_in t y = true -> str_in t (x ++ y) = true.
Proof.
  intros H. rewrite <- (append_nil_r y). now apply str_in_inside.
Qed.

Lemma str_in_app_l (t x y : string) :
  str_in t x = true -> str_in t (x ++ y) = true.
Proof. intros H. now apply (str_in_inside t "" x y). Qed.

(** The remote-service block holds what its parameter list holds. *)
Lemma ibm_replacement_holds (t params : string) :
  str_in t params = true -> str_in t (ibm_replacement params) = true.
Proof.
  intros H. unfold ibm_replacement.
  do 6 apply str_in_app_r. now apply str_in_app_l.
Qed.

(** X2. Rule (b): with a credential free of backslashes, on a buffer that
    holds no simulator block, every remote-service block without
    credential becomes the remote-service block with the parameter list;
    the result holds the token and the channel of the credential. *)
Theorem rule_b_injects_credential (LOCAL_MODE : bool) (d : gmap string pyval)
    (parts : list string) :
  carries_token (Some d) = true ->
  plain_credential d = true ->
  (2 <= List.length parts)%nat ->
  Forall (fun p => str_in ibm_block_no_token p = false) parts ->
  re_search aer_pattern (join ibm_block_no_token parts) = false ->
  outcome (replace_ibm_quantum_config LOCAL_MODE
             (join ibm_block_no_token parts) (Some d))
  = inr (join (ibm_replacement (service_params_str d)) parts)
  /\ str_in ("token=" ++ DQ ++ str (dict_get d "token") ++ DQ)
            (join (ibm_replacement (service_params_str d)) parts) = true
  /\ str_in ("channel=" ++ DQ
             ++ str (dict_get_default d "channel" (VStr "ibm_quantum")) ++ DQ)
            (join (ibm_replacement (service_params_str d)) parts) = true.
Proof.
  intros Hc Hp Hn Hf Ha. destruct (two_parts _ Hn) as (p & q & l & ->).
  destruct (service_params_hold d) as [Hch Htk].
  split; [|split].
  - rewrite select_family, Hc. change (default ∅ (Some d)) with d.
    rewrite first_match_applied. unfold first_match_wins, first_match.
    cbn [priority List.find trigger]. rewrite Ha.
    unfold ibm_pattern_no_token at 1.
    rewrite re_search_lit, str_in_join, !outcome_log_bind.
    cbn [found apply_rule]. unfold re_sub, ibm_pattern_no_token.
    rewrite sub_literal by discriminate.
    rewrite (parse_template_plain _
               (ibm_replacement_plain _ (service_params_plain _ Hp))).
    cbn [fmap option_fmap option_map outcome ret snd].
    rewrite expand_literal_template. f_equal.
    apply replace_every; [discriminate | vm_compute; reflexivity | exact Hf].
  - now apply str_in_join_piece, ibm_replacement_holds.
  - now apply str_in_join_piece, ibm_replacement_holds.
Qed.

Lemma rule_b_injects_credential_witness :
  outcome (replace_ibm_quantum_config true
             (join ibm_block_no_token test_code_ibm_parts)
             (Some demo_credential))
  = inr (join (ibm_replacement (service_params_str demo_credential))
           test_code_ibm_parts)
  /\ str_in ("token=" ++ DQ ++ "tok" ++ DQ)
            (join (ibm_replacement (service_params_str demo_credential))
               test_code_ibm_parts) = true
  /\ str_in ("channel=" ++ DQ ++ "ibm_quantum" ++ DQ)
            (join (ibm_replacement (service_params_str demo_credential))
               test_code_ibm_parts) = true.
Proof.
  apply (rule_b_injects_credential true demo_credential test_code_ibm_parts).
  - vm_compute; reflexivity.
  - vm_compute; reflexivity.
  - simpl; lia.
  - repeat constructor.
  - vm_compute; reflexivity.
Defined.

Lemma match_at_lit_head (l : string) (r : regex) (s : string) :
  startswith l s = false -> match_at (Lit l :: r) s = None.
Proof. intros H. cbn [match_at]. now rewrite H. Qed.

Lemma match_at_lit_cons (l : string) (r : regex) (s : string) :
  match_at (Lit l :: r) (l ++ s) = Nat.add (String.length l) <$> match_at r s.
Proof. cbn [match_at]. now rewrite startswith_app, drop_app. Qed.

(** A greedy run over [o], stopped by a character outside the class. *)
Lemma greedy_star_run (cls : ascii -> bool) (k : string -> option nat)
    (o y : string) (n : nat) :
  all_chars cls o = true ->
  match y with String c _ => cls c = false | EmptyString => True end ->
  k y = Some n ->
  greedy_star cls k (o ++ y) = Some (String.length o + n).
Proof.
  intros Ho Hy Hk. induction o as [|c o IH].
  - change ("" ++ y) with y. destruct y as [|c y]; cbn [greedy_star].
    + exact Hk.
    + now rewrite Hy.
  - cbn [all_chars] in Ho. apply andb_prop in Ho as [Hc Ho].
    change (String c o ++ y) with (String c (o ++ y)).
    cbn [greedy_star]. rewrite Hc, (IH Ho). reflexivity.
Qed.

(** The pattern of rule (c) matches a block that carries a credential
    without quote, from its start to its end. *)
Lemma match_at_block_with_token (old post : string) :
  old <> "" -> all_chars (other_than "'") old = true ->
  match_at ibm_pattern_with_token (block_with_token old ++ post)
  = Some (String.length (block_with_token old)).
Proof.
  intros Hne Ho. unfold block_with_token.
  change ibm_pattern_with_token
    with [Lit with_token_start; Plus (other_than "'"); Lit with_token_end].
  rewrite !append_assoc, match_at_lit_cons.
  destruct old as [|c o]; [contradiction |].
  cbn [all_chars] in Ho. apply andb_prop in Ho as [Hc Ho].
  change (String c o ++ with_token_end ++ post)
    with (String c (o ++ with_token_end ++ post)).
  cbn [match_at]. rewrite Hc.
  rewrite (greedy_star_run _ _ o (with_token_end ++ post)
             (String.length with_token_end + 0) Ho).
  - cbn [fmap option_fmap option_map]. f_equal.
    rewrite !length_append. cbn [String.length]. lia.
  - reflexivity.
  - cbv beta. now rewrite startswith_app.
Qed.

Lemma re_search_false_cons (r : regex) (c : ascii) (s : string) :
  re_search r (String c s) = false ->
  match_at r (String c s) = None /\ re_search r s = false.
Proof.
  rewrite re_search_cons.
  destruct (match_at r (String c s)); [discriminate | now split].
Qed.

(** A buffer the pattern does not match anywhere is left as it is. *)
Lemma sub_go_absent (r : regex) (t : list titem) (s : string) :
  re_search r s = false -> sub_go r t 0 s = s.
Proof.
  induction s as [|c s IH]; intros H.
  - rewrite re_search_nil in H. cbn [sub_go].
    now destruct (match_at r "").
  - apply re_search_false_cons in H as [Hm Hs].
    cbn [sub_go]. now rewrite Hm, (IH Hs).
Qed.

(** A match at the start of the buffer is replaced, and the scan goes on
    after it. *)
Lemma sub_go_match (r : regex) (t : list titem) (x post : string) :
  x <> "" ->
  match_at r (x ++ post) = Some (String.length x) ->
  sub_go r t 0 (x ++ post) = expand_template t x ++ sub_go r t 0 post.
Proof.
  destruct x as [|c x]; [contradiction |]. intros _ H.
  change (String c x ++ post) with (String c (x ++ post)) in *.
  cbn [sub_go]. rewrite H. cbn [String.length].
  rewrite sub_go_skip by (rewrite length_append; lia).
  rewrite drop_app.
  change (S (String.length x)) with (String.length (String c x)).
  change (String c (x ++ post)) with (String c x ++ post).
  now rewrite take_app.
Qed.

(** The first match of a pattern that starts with a border-free literal:
    the text before it, free of the literal, is kept; the match is
    replaced; the scan goes on after it. *)
Lemma sub_go_first (l : string) (r : regex) (t : list titem)
    (pre m post : string) :
  border_free l = true ->
  str_in l pre = false ->
  l <> "" ->
  match_at (Lit l :: r) (l ++ m ++ post)
  = Some (String.length (l ++ m)) ->
  sub_go (Lit l :: r) t 0 (pre ++ l ++ m ++ post)
  = pre ++ expand_template t (l ++ m) ++ sub_go (Lit l :: r) t 0 post.
Proof.
  intros Hb Hpre Hl Hmatch. induction pre as [|c pre IH].
  - change ("" ++ ?x) with x. rewrite <- append_assoc in *.
    apply sub_go_match; [|exact Hmatch].
    destruct l; [contradiction | discriminate].
  - pose proof (border_free_first _ _ (m ++ post) Hb Hpre) as Hs.
    apply str_in_false_cons in Hpre as [_ Hpre].
    change (String c pre ++ l ++ m ++ post)
      with (String c (pre ++ l ++ m ++ post)) in *.
    cbn [sub_go]. rewrite (match_at_lit_head _ _ _ (Hs ltac:(discriminate))).
    now rewrite (IH Hpre).
Qed.

Lemma re_search_at (r : regex) (s : string) (n : nat) :
  match_at r s = Some n -> re_search r s = true.
Proof.
  intros H. destruct s; [rewrite re_search_nil | rewrite re_search_cons];
    now rewrite H.
Qed.

Lemma re_search_after (r : regex) (x y : string) :
  re_search r y = true -> re_search r (x ++ y) = true.
Proof.
  intros H. induction x as [|c x IH]; [exact H |].
  change (String c x ++ y) with (String c (x ++ y)).
  rewrite re_search_cons, IH. now destruct (match_at r (String c (x ++ y))).
Qed.

(** X3. Rule (c): with a credential free of backslashes, on a buffer that
    triggers neither rule (a) nor rule (b) and holds one remote-service
    block with an old credential (not empty, without quote), that block
    becomes the remote-service block with the new parameter list; the text
    before and after it is kept. *)
Theorem rule_c_refreshes_credential (LOCAL_MODE : bool)
    (d : gmap string pyval) (pre old post : string) :
  carries_token (Some d) = true ->
  plain_credential d = true ->
  old <> "" ->
  all_chars (other_than "'") old = true ->
  str_in with_token_start pre = false ->
  re_search ibm_pattern_with_token post = false ->
  re_search aer_pattern (pre ++ block_with_token old ++ post) = false ->
  re_search ibm_pattern_no_token (pre ++ block_with_token old ++ post) = false ->
  outcome (replace_ibm_quantum_config LOCAL_MODE
             (pre ++ block_with_token old ++ post) (Some d))
  = inr (pre ++ ibm_replacement (service_params_str d) ++ post).
Proof.
  intros Hc Hp Hne Ho Hpre Hpost Ha Hb.
  pose proof (match_at_block_with_token old post Hne Ho) as Hm.
  rewrite select_family, Hc. change (default ∅ (Some d)) with d.
  rewrite first_match_applied. unfold first_match_wins, first_match.
  cbn [priority List.find trigger]. rewrite Ha, Hb.
  assert (Hs : re_search ibm_pattern_with_token
                 (pre ++ block_with_token old ++ post) = true).
  { apply re_search_after. now rewrite (re_search_at _ _ _ Hm). }
  rewrite Hs, !outcome_log_bind. cbn [found apply_rule].
  rewrite (re_sub_plain _ _ _
             (ibm_replacement_plain _ (service_params_plain _ Hp))).
  cbn [outcome ret snd]. f_equal.
  unfold block_with_token in *. rewrite !append_assoc in *.
  change ibm_pattern_with_token
    with [Lit with_token_start; Plus (other_than "'"); Lit with_token_end] in *.
  rewrite <- (append_assoc old) in *.
  rewrite sub_go_first.
  - rewrite expand_literal_template, sub_go_absent by exact Hpost.
    reflexivity.
  - vm_compute; reflexivity.
  - exact Hpre.
  - discriminate.
  - rewrite Hm; f_equal; rewrite !length_append; lia.
Qed.

Lemma rule_c_refreshes_credential_witness :
  outcome (replace_ibm_quantum_config true
             (stale_before ++ block_with_token "OLD" ++ stale_after)
             (Some demo_credential))
  = inr (stale_before ++ ibm_replacement (service_params_str demo_credential)
         ++ stale_after).
Proof.
  apply (rule_c_refreshes_credential true demo_credential
           stale_before "OLD" stale_after);
    try (vm_compute; reflexivity).
  discriminate.
Defined.

End InjectCredential.

(** * More on the section path and the legacy path *)

Section SectionPath.

(** The lines of the simulator block are no option lines. *)
Lemma strip_options_step0_body (rest : string) :
  strip_options (step0_body ++ rest) = step0_body ++ strip_options rest.
Proof. reflexivity. Qed.

(** X4. On a buffer of the shape of the section path (text without
    marker, the header line, a body without marker, then the end of the
    buffer or a marker) the result is: what comes before the body with its
    option lines removed, the simulator block between line ends, and what
    comes after the body with its option lines removed.  The block is
    always in the result. *)
Theorem simulator_block_in_place (pre t body rest : string) :
  str_in marker_start pre = false ->
  one_line t = true ->
  str_in marker_start body = false ->
  rest = "" \/ match_at step_marker rest <> None ->
  outcome (token_absent (pre ++ (header ++ t ++ NL) ++ body ++ rest))
  = inr (strip_options (pre ++ header ++ t ++ NL) ++ step0_body
         ++ strip_options rest)
  /\ str_in aer_block
       (strip_options (pre ++ header ++ t ++ NL) ++ step0_body
        ++ strip_options rest) = true.
Proof.
  intros Hpre Ht Hbody Hrest. split.
  - rewrite (token_absent_sections _ _ _ _ Hpre Ht Hbody Hrest).
    cbn [outcome snd]. f_equal.
    replace (pre ++ (header ++ t ++ NL) ++ step0_body ++ rest)
      with ((pre ++ header ++ t) ++ NL ++ step0_body ++ rest)
      by now rewrite !append_assoc.
    rewrite strip_options_app, strip_options_step0_body.
    now rewrite !append_assoc.
  - apply str_in_app_r, str_in_app_l.
    change step0_body with (NL ++ aer_block ++ NL ++ NL). apply str_in_app.
Qed.

Lemma simulator_block_in_place_witness :
  outcome (token_absent test_basic_config)
  = inr (strip_options ("" ++ header ++ "" ++ NL) ++ step0_body
         ++ strip_options ("## STEP 1 : Test" ++ NL ++ "print('Hello World!')"))
  /\ str_in aer_block
       (strip_options ("" ++ header ++ "" ++ NL) ++ step0_body
        ++ strip_options ("## STEP 1 : Test" ++ NL ++ "print('Hello World!')"))
     = true.
Proof.
  apply (simulator_block_in_place "" ""
           (ibm_block_no_token ++ NL
            ++ "print(f'Using backend: {backend.name}')" ++ NL ++ NL)
           ("## STEP 1 : Test" ++ NL ++ "print('Hello World!')")).
  - vm_compute; reflexivity.
  - vm_compute; reflexivity.
  - vm_compute; reflexivity.
  - right. vm_compute. discriminate.
Defined.

(** X5. On such a buffer nothing of the old body is left: a text without
    line end that occurs neither before the body (header line included),
    nor in the simulator block, nor after the body, does not occur in the
    result, whatever the body held. *)
Theorem old_body_is_gone (pre t body rest x : string) :
  str_in marker_start pre = false ->
  one_line t = true ->
  str_in marker_start body = false ->
  rest = "" \/ match_at step_marker rest <> None ->
  one_line x = true ->
  x <> "" ->
  str_in x (pre ++ header ++ t) = false ->
  str_in x step0_body = false ->
  str_in x rest = false ->
  exists s,
    outcome (token_absent (pre ++ (header ++ t ++ NL) ++ body ++ rest)) = inr s
    /\ str_in x s = false.
Proof.
  intros Hpre Ht Hbody Hrest Hx Hne H1 H2 H3.
  rewrite (token_absent_sections _ _ _ _ Hpre Ht Hbody Hrest).
  eexists; split; [reflexivity |].
  apply (strip_options_keeps_absent _ _ Hx Hne).
  replace (pre ++ (header ++ t ++ NL) ++ step0_body ++ rest)
    with ((pre ++ header ++ t) ++ NL ++ step0_body ++ rest)
    by now rewrite !append_assoc.
  rewrite (str_in_lines _ _ _ Hx Hne), H1.
  change step0_body with ((NL ++ aer_block ++ NL) ++ NL) in *.
  rewrite append_assoc, (str_in_lines _ _ _ Hx Hne), H3.
  now rewrite (str_in_false_app_l _ _ _ H2).
Qed.

Lemma old_body_is_gone_witness :
  exists s,
    outcome (token_absent test_basic_config) = inr s
    /\ str_in "least_busy" s = false.
Proof.
  apply (old_body_is_gone "" ""
           (ibm_block_no_token ++ NL
            ++ "print(f'Using backend: {backend.name}')" ++ NL ++ NL)
           ("## STEP 1 : Test" ++ NL ++ "print('Hello World!')")
           "least_busy");
    try (vm_compute; reflexivity).
  - right. vm_compute. discriminate.
  - discriminate.
Defined.

Lemma replace_step0_unnamed (n : nat) (l : list string) :
  List.length l = 2 * n ->
  forallb (fun m => negb (names_step0 m)) (markers l) = true ->
  replace_step0 l = inr l.
Proof.
  revert l; induction n as [|n IH]; intros l Hl Hm.
  - now destruct l.
  - destruct l as [|m [|b l]]; simpl in Hl; try lia.
    cbn [markers forallb] in Hm. apply andb_prop in Hm as [Hm Hl'].
    cbn [replace_step0]. unfold names_step0 in Hm.
    apply negb_true_iff in Hm. rewrite Hm, (IH l); [reflexivity | lia | exact Hl'].
Qed.

(** X6. When the header occurs and the split yields at least three
    elements, but no marker holds both [STEP 0] and [IBM Quantum Config]
    (the header stands on a last line without line end), no body is
    replaced and the legacy patterns are not tried: the buffer comes back
    with its option lines removed, and nothing else changed. *)
Theorem unnamed_sections_only_stripped (code : string) :
  re_search ibm_config_pattern code = true ->
  (3 <= List.length (Re.split step_marker code))%nat ->
  forallb (fun m => negb (names_step0 m))
          (markers (List.tl (Re.split step_marker code))) = true ->
  token_absent code
  = ([LogLocalNoToken; LogFoundHeader; LogRemovingOptions],
     inr (strip_options code)).
Proof.
  intros Hh Hn Hm. unfold token_absent. rewrite Hh.
  apply Nat.leb_le in Hn. rewrite Hn. unfold rewrite_sections.
  pose proof (split_concat step_marker code) as Hc.
  pose proof (split_go_even step_marker 0 code) as He.
  unfold Re.split in *. destruct (split_go step_marker 0 code) as [h l].
  cbn [fst snd List.tl List.firstn] in *.
  apply Nat.even_spec in He as [n Hl].
  rewrite (replace_step0_unnamed n l Hl Hm).
  change (List.app (h :: List.firstn 0 l) l) with (h :: l).
  now rewrite Hc, re_sub_options, !log_bind.
Qed.

Lemma unnamed_sections_only_stripped_witness :
  token_absent header_after_marker
  = ([LogLocalNoToken; LogFoundHeader; LogRemovingOptions],
     inr (strip_options header_after_marker)).
Proof.
  apply (unnamed_sections_only_stripped header_after_marker);
    vm_compute; reflexivity.
Defined.

(** X7. Removing the option lines a second time removes nothing more. *)
Theorem option_lines_removed_at_once (s : string) :
  strip_options (strip_options s) = strip_options s.
Proof. apply strip_options_idempotent. Qed.

(** X8. A buffer that does not hold [.options.] is left as it is by the
    removal of the option lines. *)
Theorem without_options_untouched (s : string) :
  str_in ".options." s = false -> strip_options s = s.
Proof.
  induction s as [l Hl | l r Hl IH] using line_ind; intros H.
  - now apply strip_options_one_line.
  - rewrite str_in_lines in H by (reflexivity || discriminate).
    apply orb_false_elim in H as [H1 H2].
    rewrite (strip_options_line _ _ Hl), H1, (IH H2).
    now rewrite append_assoc.
Qed.

Lemma without_options_untouched_witness :
  strip_options test_basic_config = test_basic_config.
Proof.
  apply (without_options_untouched test_basic_config).
  vm_compute; reflexivity.
Defined.

Lemma re_search_needs_literal (l : string) (r : regex) (s : string) :
  str_in l s = false -> re_search (Lit l :: r) s = false.
Proof.
  induction s as [|c s IH]; intros H.
  - rewrite re_search_nil, match_at_lit_head; [reflexivity |].
    simpl in H. now rewrite orb_false_r in H.
  - apply str_in_false_cons in H as [H1 H2].
    now rewrite re_search_cons, (match_at_lit_head _ _ _ H1), (IH H2).
Qed.

(** X9. The legacy path: on a buffer without the header and without a
    remote-service block that carries a credential, every remote-service
    block without credential becomes the simulator block, and the option
    lines are removed from the result. *)
Theorem legacy_replaces_every_block (parts : list string) :
  (2 <= List.length parts)%nat ->
  Forall (fun p => str_in ibm_block_no_token p = false) parts ->
  str_in header (join ibm_block_no_token parts) = false ->
  str_in with_token_start (join ibm_block_no_token parts) = false ->
  token_absent (join ibm_block_no_token parts)
  = ([LogLocalNoToken; LogMatchedLegacy 2; LogRemovingOptions],
     inr (strip_options (join aer_block parts))).
Proof.
  intros Hn Hf Hh Hw. destruct (two_parts _ Hn) as (p & q & l & ->).
  unfold token_absent, ibm_config_pattern.
  rewrite re_search_lit. change "## STEP 0 : IBM Quantum Config" with header.
  rewrite Hh.
  change ibm_patterns
    with [ [Lit with_token_start; Plus (other_than "'");
            Lit (with_token_end ++ NL ++ "print(f" ++ DQ
                 ++ "Using IBM Quantum backend: {");
            Plus (other_than "}"); Lit ("}" ++ DQ ++ ")")];
           [Lit ibm_block_no_token] ].
  cbn [try_patterns]. rewrite (re_search_needs_literal _ _ _ Hw).
  rewrite re_search_lit, str_in_join.
  unfold re_sub at 1.
  rewrite (sub_literal ibm_block_no_token aer_block) by discriminate.
  rewrite (parse_template_plain aer_block eq_refl).
  cbn [fmap option_fmap option_map]. rewrite expand_literal_template.
  rewrite replace_every; [| discriminate | reflexivity | exact Hf].
  now rewrite ret_bind, re_sub_options, !log_bind.
Qed.

Lemma legacy_replaces_every_block_witness :
  token_absent (join ibm_block_no_token test_code_ibm_parts)
  = ([LogLocalNoToken; LogMatchedLegacy 2; LogRemovingOptions],
     inr (strip_options (join aer_block test_code_ibm_parts))).
Proof.
  apply (legacy_replaces_every_block test_code_ibm_parts).
  - simpl; lia.
  - repeat constructor.
  - vm_compute; reflexivity.
  - vm_compute; reflexivity.
Defined.

End SectionPath.

(** * More on the sandbox *)

Section SandboxMore.

Context {store : Type}.
Variable exec : interpreter store.
Variable LOCAL_MODE : bool.

Lemma run_captured_text (code : string) (σ : store) :
  outcome (run_captured exec code σ).1
  = match text_of_run (exec code exec_globals σ) with
    | Some text => inr text
    | None =>
        match ended (exec code exec_globals σ) with
        | Faulted _ message => inl (Raised false message)
        | Finished => inl (Raised false "")
        end
    end.
Proof.
  unfold run_captured, text_of_run. cbn [fst].
  destruct (ended (exec code exec_globals σ)) as [|[|] m];
    now rewrite !outcome_log_bind.
Qed.

Lemma text_of_run_not_empty (r : run store) (text : string) :
  text_of_run r = Some text -> text <> "".
Proof.
  unfold text_of_run. destruct (ended r) as [|[|] m]; intros [= <-].
  - destruct (String.eqb _ "") eqn:E; [discriminate |].
    now apply String.eqb_neq in E.
  - discriminate.
Qed.

Lemma execute_text_not_empty (code text : string)
    (cfg : option (gmap string pyval)) (σ : store) :
  outcome (execute_python_code exec LOCAL_MODE code cfg σ).1.1 = inr text ->
  text <> "".
Proof.
  destruct (outcome (replace_ibm_quantum_config LOCAL_MODE code cfg))
    as [e|code'] eqn:Hr.
  - rewrite (execute_not_rewritten exec LOCAL_MODE _ _ _ σ Hr). discriminate.
  - destruct (execute_rewritten exec LOCAL_MODE _ _ _ σ Hr) as [-> _].
    rewrite run_captured_text.
    destruct (text_of_run (exec code' exec_globals σ)) as [t|] eqn:E.
    + intros [= <-]. exact (text_of_run_not_empty _ _ E).
    + now destruct (ended (exec code' exec_globals σ)).
Qed.

(** X10. The sandbox never returns the empty text: the text is the
    captured output when there is some, the sentinel when there is none,
    or the error line. *)
Theorem sandbox_text_never_empty (code text : string)
    (cfg : option (gmap string pyval)) (σ : store) :
  outcome (execute_python_code exec LOCAL_MODE code cfg σ).1.1 = inr text ->
  text <> "".
Proof. apply execute_text_not_empty. Qed.

(** X11. What the rewriter raises leaves the sandbox as it is, and the
    buffer is not executed: the state of the interpreter is the one
    before the call. *)
Theorem rewriter_fault_skips_execution (code : string) (e : exn)
    (cfg : option (gmap string pyval)) (σ : store) :
  outcome (replace_ibm_quantum_config LOCAL_MODE code cfg) = inl e ->
  outcome (execute_python_code exec LOCAL_MODE code cfg σ).1.1 = inl e
  /\ (execute_python_code exec LOCAL_MODE code cfg σ).1.2 = σ
  /\ (execute_python_code exec LOCAL_MODE code cfg σ).2 = 0.
Proof.
  intros H. now rewrite (execute_not_rewritten exec LOCAL_MODE _ _ _ σ H).
Qed.

(** X12. An exception that does not derive from [Exception], such as
    [SystemExit], is not turned into text: it leaves the sandbox. *)
Theorem system_exit_leaves_sandbox (code code' message : string)
    (cfg : option (gmap string pyval)) (σ : store) :
  outcome (replace_ibm_quantum_config LOCAL_MODE code cfg) = inr code' ->
  ended (exec code' exec_globals σ) = Faulted false message ->
  outcome (execute_python_code exec LOCAL_MODE code cfg σ).1.1
  = inl (Raised false message).
Proof. apply base_exception_propagates. Qed.


End SandboxMore.

Section SandboxMoreRuns.

Lemma sandbox_text_never_empty_witness : no_output <> "".
Proof.
  apply (sandbox_text_never_empty PyFragment.exec true "" no_output None ∅).
  vm_compute. reflexivity.
Defined.

Lemma rewriter_fault_skips_execution_witness :
  outcome (execute_python_code PyFragment.exec true aer_block
             (Some backslash_credential) ∅).1.1 = inl ReError
  /\ (execute_python_code PyFragment.exec true aer_block
        (Some backslash_credential) ∅).1.2 = ∅
  /\ (execute_python_code PyFragment.exec true aer_block
        (Some backslash_credential) ∅).2 = 0.
Proof.
  apply (rewriter_fault_skips_execution PyFragment.exec true aer_block ReError
           (Some backslash_credential) ∅).
  vm_compute. reflexivity.
Defined.

Lemma system_exit_leaves_sandbox_witness :
  outcome (execute_python_code PyFragment.exec true exits None ∅).1.1
  = inl (Raised false "bye").
Proof.
  apply (system_exit_leaves_sandbox PyFragment.exec true exits exits "bye"
           None ∅);
    vm_compute; reflexivity.
Defined.


End SandboxMoreRuns.

(** * More on the rewriter's exception *)

Section RewriterRaises.




End RewriterRaises.

(** * More on the gateway *)

Section GatewayMore.

Context {store : Type}.
Variable exec : interpreter store.
Variable LOCAL_MODE : bool.

Lemma run_program_outcome (host code : string) (data : gmap string string)
    (σ : store) :
  data !! "input_value" = Some code ->
  let x := execute_python_code exec LOCAL_MODE code (ibm_config_of data) σ in
  outcome (run_program exec LOCAL_MODE
             {| client_host := host; body := Some data |} σ).1
  = match (if (timeout_seconds <? x.2)%nat then inr timeout_message
           else outcome x.1.1) with
    | inl e => inl e
    | inr output =>
        inr (JSONResponse 200
               {[ "output" := if negb (String.eqb output "")
                              then replace "\\n" NL output else output ]})
    end
  /\ (run_program exec LOCAL_MODE
        {| client_host := host; body := Some data |} σ).2 = x.1.2.
Proof.
  intros Hd. unfold run_program. cbn [body client_host]. rewrite Hd.
  destruct (execute_python_code exec LOCAL_MODE code (ibm_config_of data) σ)
    as [[[l o] σ'] elapsed].
  cbn [fst snd]. rewrite !outcome_log_bind. split; [|reflexivity].
  destruct (timeout_seconds <? elapsed)%nat; destruct o; reflexivity.
Qed.


End GatewayMore.

Section Normalised.

Lemma inr_eq {A B : Type} (a b : B) : @inr A B a = inr b -> a = b.
Proof. congruence. Qed.

Lemma replace_nl_head (s x : string) (c : ascii) :
  replace_go "\\n" NL 0 s = String c x ->
  c <> "010"%char ->
  exists y, s = String c y /\ x = replace_go "\\n" NL 0 y.
Proof.
  destruct s as [|c1 s1]; [discriminate |].
  cbn [replace_go].
  destruct (startswith "\\n" (String c1 s1)).
  - cbn [String.length]. unfold NL. cbn [String.append].
    intros [= <- _] H. now destruct H.
  - intros [= <- <-] _. eauto.
Qed.

Lemma replace_nl_clean (s : string) (k : nat) :
  str_in "\\n" (replace_go "\\n" NL k s) = false.
Proof.
  revert k. induction s as [|c s IH]; intros [|k]; try reflexivity.
  - cbn [replace_go].
    destruct (startswith "\\n" (String c s)) eqn:E.
    + cbn [String.length]. unfold NL. cbn [String.append].
      cbn [str_in]. rewrite IH. reflexivity.
    + cbn [str_in]. rewrite IH, orb_false_r.
      destruct (startswith "\\n" (String c (replace_go "\\n" NL 0 s)))
        eqn:F; [exfalso | reflexivity].
      destruct (replace_go "\\n" NL 0 s) as [|c1 [|c2 z]] eqn:O;
        cbn [startswith] in F;
        try (rewrite ?andb_false_r in F; discriminate).
      apply andb_prop in F as [F1 F]. apply andb_prop in F as [F2 F].
      rewrite andb_true_r in F.
      apply Ascii.eqb_eq in F1, F2, F. subst c c1 c2.
      apply replace_nl_head in O as (y & -> & O); [|discriminate].
      symmetry in O. apply replace_nl_head in O as (w & -> & _);
        [|discriminate].
      discriminate E.
  - cbn [replace_go]. apply IH.
Qed.

Lemma replace_not_empty (old new s : string) :
  new <> "" -> s <> "" -> replace old new s <> "".
Proof.
  intros Hn Hs. destruct s as [|c s]; [now destruct Hs |].
  unfold replace. cbn [replace_go].
  destruct (startswith old (String c s)); [|discriminate].
  destruct new as [|a new]; [now destruct Hn |].
  destruct (String.length old); discriminate.
Qed.

End Normalised.

Section GatewayAnswers.

Context {store : Type}.
Variable exec : interpreter store.
Variable LOCAL_MODE : bool.

(** X15. Whatever response [run_program] returns has the status 200
    and a body with the single key [output]; its text is not empty and
    holds no backslash, backslash, n. *)
Theorem response_is_200_with_output (req : request) (σ : store)
    (resp : response) :
  outcome (run_program exec LOCAL_MODE req σ).1 = inr resp ->
  status_code resp = 200
  /\ exists text, content resp = {[ "output" := text ]}
                  /\ text <> "" /\ str_in "\\n" text = false.
Proof.
  destruct req as [host [data|]]; [|discriminate].
  destruct (data !! "input_value") as [code|] eqn:Hd;
    [|unfold run_program; cbn [body]; rewrite Hd; discriminate].
  destruct (run_program_outcome exec LOCAL_MODE host code data σ Hd)
    as [-> _].
  assert (He := execute_text_not_empty exec LOCAL_MODE code).
  destruct (timeout_seconds <? _)%nat.
  - intros H. apply inr_eq in H. subst resp. cbn [status_code content].
    split; [reflexivity |].
    eexists; split; [reflexivity |]. split; vm_compute; congruence.
  - destruct (outcome _) as [e|output] eqn:Ho; [discriminate |].
    intros H. apply inr_eq in H. subst resp. cbn [status_code content].
    split; [reflexivity |].
    eexists; split; [reflexivity |].
    apply He in Ho. apply String.eqb_neq in Ho as Hb. rewrite Hb.
    cbn [negb]. split.
    + apply replace_not_empty; [discriminate | exact Ho].
    + apply replace_nl_clean.
Qed.

(** X16. An execution that takes longer than the thirty minutes is
    answered with the status 200 and the time-out message, however the
    execution ends. *)
Theorem late_execution_times_out (host code code' : string)
    (data : gmap string string) (σ : store) :
  data !! "input_value" = Some code ->
  outcome (replace_ibm_quantum_config LOCAL_MODE code (ibm_config_of data))
  = inr code' ->
  timeout_seconds < seconds (exec code' exec_globals σ) ->
  outcome (run_program exec LOCAL_MODE
             {| client_host := host; body := Some data |} σ).1
  = inr (JSONResponse 200
           {[ "output" :=
                "Error: Code execution timed out after 30 minutes." ]}).
Proof.
  intros Hd Hr Ht.
  destruct (run_program_outcome exec LOCAL_MODE host code data σ Hd)
    as [-> _].
  destruct (execute_rewritten exec LOCAL_MODE _ _ _ σ Hr) as (_ & _ & ->).
  apply Nat.ltb_lt in Ht. rewrite Ht. vm_compute. reflexivity.
Qed.



End GatewayAnswers.

Section Credential.


End Credential.

Section GatewayRuns.

Lemma response_is_200_with_output_witness :
  status_code (JSONResponse 200 {[ "output" := "a" ++ NL ++ "b" ++ NL ]})
  = 200
  /\ exists text,
       content (JSONResponse 200 {[ "output" := "a" ++ NL ++ "b" ++ NL ]})
       = {[ "output" := text ]}
       /\ text <> "" /\ str_in "\\n" text = false.
Proof.
  apply (response_is_200_with_output PyFragment.exec true
           {| client_host := "client";
              body := Some {[ "input_value" := prints_twice ]} |} ∅).
  vm_compute. reflexivity.
Defined.

Lemma late_execution_times_out_witness :
  outcome (run_program PyFragment.exec true
             {| client_host := "client";
                body := Some {[ "input_value" := sleeps_too_long ]} |} ∅).1
  = inr (JSONResponse 200
           {[ "output" :=
                "Error: Code execution timed out after 30 minutes." ]}).
Proof.
  apply (late_execution_times_out PyFragment.exec true "client"
           sleeps_too_long sleeps_too_long).
  - vm_compute; reflexivity.
  - vm_compute; reflexivity.
  - vm_compute. lia.
Defined.


End GatewayRuns.

(** * The code extractor *)

Section ExtractorFacts.

Lemma group_then_close_inv (s g : string) (n : nat) :
  group_then_close s = Some (g, n) ->
  n = String.length g + String.length close_fence
  /\ s = g ++ close_fence ++ drop n s
  /\ str_in close_fence g = false.
Proof.
  revert g n. induction s as [|c s IH]; intros g n.
  - cbn. discriminate.
  - cbn [group_then_close].
    destruct (startswith close_fence (String c s)) eqn:E.
    + intros [= <- <-]. repeat split.
      destruct (startswith_inv _ _ E) as [r Hr]. rewrite Hr at 1.
      cbn [String.append]. f_equal. rewrite Hr.
      change (String.length close_fence) with 4. reflexivity.
    + destruct (group_then_close s) as [[g' n']|]; [|discriminate].
      cbn [fmap option_fmap option_map]. intros [= <- <-].
      destruct (IH _ _ eq_refl) as (Hn & Hs & Hg). repeat split.
      * cbn [String.length]. lia.
      * cbn [String.append drop]. now f_equal.
      * cbn [str_in]. rewrite Hg, orb_false_r.
        destruct (startswith close_fence (String c g')) eqn:F;
          [|reflexivity].
        rewrite Hs in E. change (String c (g' ++ ?x)) with (String c g' ++ x) in E.
        destruct (startswith_inv _ _ F) as [r Hr]. rewrite Hr in E.
        rewrite append_assoc, startswith_app in E. discriminate.
Qed.

Lemma match_block_inv (s g : string) (n : nat) :
  match_block s = Some (g, n) ->
  str_in close_fence s = true /\ str_in close_fence g = false /\ 0 < n.
Proof.
  unfold match_block.
  destruct (startswith open_fence s) eqn:E; [|discriminate].
  destruct (startswith_inv _ _ E) as [r ->].
  rewrite drop_app.
  assert (Hg : forall x g n, group_then_close x = Some (g, n) ->
             str_in close_fence x = true /\ str_in close_fence g = false).
  { intros x g0 n0 H. apply group_then_close_inv in H as (_ & -> & ?).
    split; [apply str_in_app | assumption]. }
  assert (Hn : forall x g n, newline_then x = Some (g, n) ->
             str_in close_fence x = true /\ str_in close_fence g = false).
  { intros [|c x] g0 n0; [discriminate |]. cbn [newline_then].
    destruct (Ascii.eqb c "010"); [|discriminate].
    destruct (group_then_close x) as [[g1 n1]|] eqn:G; [|discriminate].
    cbn [fmap option_fmap option_map]. intros [= <- <-].
    destruct (Hg _ _ _ G) as [H1 H2]. split; [|exact H2].
    cbn [str_in]. rewrite H1. apply orb_true_r. }
  assert (Hs : forall x g n, spaces_then x = Some (g, n) ->
             str_in close_fence x = true /\ str_in close_fence g = false).
  { induction x as [|c x IH]; intros g0 n0; cbn [spaces_then].
    - apply Hn.
    - destruct (whitespace c); [|apply Hn].
      destruct (spaces_then x) as [[g1 n1]|]; [|apply Hn].
      intros [= <- <-]. destruct (IH _ _ eq_refl) as [H1 H2].
      split; [|exact H2]. cbn [str_in]. rewrite H1. apply orb_true_r. }
  destruct (spaces_then r) as [[g1 n1]|] eqn:S; [|discriminate].
  cbn [fmap option_fmap option_map]. intros [= <- <-].
  destruct (Hs _ _ _ S) as [H1 H2]. repeat split.
  - apply str_in_app_r. exact H1.
  - exact H2.
  - change (String.length open_fence) with 9. lia.
Qed.

Lemma findall_go_no_open (s : string) (k : nat) :
  str_in open_fence s = false -> findall_go k s = [].
Proof.
  revert k. induction s as [|c s IH]; intros [|k] H; try reflexivity;
    apply str_in_false_cons in H as [H1 H2]; cbn [findall_go].
  - unfold match_block. rewrite H1. now apply IH.
  - now apply IH.
Qed.

Lemma findall_go_no_close (s : string) (k : nat) :
  str_in close_fence s = false -> findall_go k s = [].
Proof.
  revert k. induction s as [|c s IH]; intros [|k] H; try reflexivity;
    cbn [findall_go].
  - destruct (match_block (String c s)) as [[g n]|] eqn:M.
    + apply match_block_inv in M as [M _]. congruence.
    + apply str_in_false_cons in H as [_ H]. now apply IH.
  - apply str_in_false_cons in H as [_ H]. now apply IH.
Qed.


Lemma findall_go_skip (a b : string) (k : nat) :
  findall_go (String.length a + k) (a ++ b) = findall_go k b.
Proof. induction a as [|c a IH]; [reflexivity | exact IH]. Qed.

Lemma findall_go_before (q x : string) :
  str_in open_fence q = false ->
  findall_go 0 (q ++ open_fence ++ x) = findall_go 0 (open_fence ++ x).
Proof.
  induction q as [|c q IH]; [reflexivity |]. intros H.
  change (String c q ++ ?y) with (String c (q ++ y)). cbn [findall_go].
  change (String c (q ++ ?y)) with (String c q ++ y).
  unfold match_block.
  rewrite border_free_first; [| reflexivity | exact H | discriminate].
  apply str_in_false_cons in H as [_ H]. now apply IH.
Qed.

Lemma group_then_close_code (code x : string) :
  str_in close_fence code = false ->
  group_then_close (code ++ close_fence ++ x)
  = Some (code, String.length code + String.length close_fence).
Proof.
  induction code as [|c code IH]; intros H.
  - reflexivity.
  - change (String c code ++ ?y) with (String c (code ++ y)).
    cbn [group_then_close].
    change (String c (code ++ ?y)) with (String c code ++ y).
    rewrite border_free_first; [| reflexivity | exact H | discriminate].
    apply str_in_false_cons in H as [_ H].
    change (String c code ++ ?y) with (String c (code ++ y)).
    now rewrite (IH H).
Qed.

Lemma whitespace_newline (c : ascii) :
  whitespace c = false -> Ascii.eqb c "010" = false.
Proof.
  intros H. destruct (Ascii.eqb c "010") eqn:E; [|reflexivity].
  apply Ascii.eqb_eq in E. subst c. discriminate.
Qed.

Lemma spaces_then_run (ws r g : string) (c : ascii) (n : nat) :
  all_chars whitespace ws = true ->
  whitespace c = false ->
  group_then_close (String c r) = Some (g, n) ->
  spaces_then (ws ++ NL ++ String c r)
  = Some (g, String.length ws + 1 + n).
Proof.
  intros Hw Hc Hg. induction ws as [|w ws IH].
  - unfold NL. cbn [String.append spaces_then].
    change (whitespace "010") with true. cbv iota.
    rewrite Hc. cbn [newline_then]. rewrite (whitespace_newline _ Hc).
    change (Ascii.eqb "010" "010") with true. cbv iota.
    now rewrite Hg.
  - cbn [all_chars] in Hw. apply andb_prop in Hw as [Hw1 Hw2].
    change (String w ws ++ ?y) with (String w (ws ++ y)).
    cbn [spaces_then]. rewrite Hw1, (IH Hw2). reflexivity.
Qed.

Lemma findall_block (before ws code after : string) (c : ascii) :
  str_in open_fence before = false ->
  all_chars whitespace ws = true ->
  whitespace c = false ->
  str_in close_fence (String c code) = false ->
  findall (before ++ fenced ws (String c code) ++ after)
  = String c code :: findall after.
Proof.
  intros Hb Hw Hc Hk. unfold findall, fenced.
  rewrite !append_assoc.
  rewrite (findall_go_before _ _ Hb).
  assert (Hm : match_block (open_fence ++ ws ++ NL ++ String c code
                            ++ close_fence ++ after)
               = Some (String c code,
                       S (String.length ("``python" ++ ws ++ NL
                                         ++ String c code ++ close_fence)
                          + 0))).
  { unfold match_block. rewrite startswith_app, drop_app.
    change (String c code ++ ?y) with (String c (code ++ y)).
    erewrite spaces_then_run;
      [| exact Hw | exact Hc
       | change (String c (code ++ ?y)) with (String c code ++ y);
         now apply group_then_close_code].
    cbn [fmap option_fmap option_map]. do 2 f_equal.
    rewrite !length_append.
    change (String.length open_fence) with 9.
    change (String.length close_fence) with 4.
    change (String.length NL) with 1.
    change (String.length "``python") with 8.
    cbn [String.length]. rewrite !length_append.
    change (String.length close_fence) with 4. lia. }
  remember (ws ++ NL ++ String c code ++ close_fence ++ after) as rest.
  change (open_fence ++ rest)
    with (String "`" ("``python" ++ rest)) in *.
  cbn [findall_go]. rewrite Hm. cbv beta iota.
  f_equal. subst rest.
  rewrite <- (findall_go_skip
                ("``python" ++ ws ++ NL ++ String c code ++ close_fence)
                after 0).
  now rewrite !append_assoc.
Qed.

Lemma join_filtered_empty (l : list string) :
  Forall (fun m => m <> "") l ->
  String.eqb (join NL l) "" = match l with [] => true | _ => false end.
Proof.
  destruct l as [|[|a x] l]; [reflexivity | |]; intros H.
  - inversion H; subst. now destruct H2.
  - destruct l; reflexivity.
Qed.

Lemma filter_not_empty (l : list string) :
  Forall (fun m => m <> "")
    (List.filter (fun m => negb (String.eqb m "")) l).
Proof.
  induction l as [|x l IH]; [constructor |]. cbn [List.filter].
  destruct (String.eqb x "") eqn:E; [exact IH |].
  constructor; [now apply String.eqb_neq | exact IH].
Qed.

(** X20. A text without the opening fence yields the empty result. *)
Theorem no_fence_no_code (text : string) :
  str_in open_fence text = false -> extract text = "".
Proof.
  intros H. unfold extract, findall. now rewrite findall_go_no_open.
Qed.

(** X21. A block that is never closed is not extracted: a text without
    a line end followed by three backquotes yields the empty result. *)
Theorem unterminated_block_ignored (text : string) :
  str_in close_fence text = false -> extract text = "".
Proof.
  intros H. unfold extract, findall. now rewrite findall_go_no_close.
Qed.


(** X23. The first fenced block of a text is extracted as it is, and
    the rest of the text is scanned after its closing fence: the
    whitespace between the opening fence and the last line end before
    the code is dropped, and the blocks are joined by line ends. *)
Theorem fenced_block_extracted (before ws code after : string) (c : ascii) :
  str_in open_fence before = false ->
  all_chars whitespace ws = true ->
  whitespace c = false ->
  str_in close_fence (String c code) = false ->
  extract (before ++ fenced ws (String c code) ++ after)
  = if String.eqb (extract after) "" then String c code
    else String c code ++ NL ++ extract after.
Proof.
  intros Hb Hw Hc Hk. unfold extract.
  rewrite (findall_block _ _ _ _ _ Hb Hw Hc Hk).
  cbn [List.filter String.eqb negb].
  rewrite (join_filtered_empty _ (filter_not_empty _)).
  destruct (List.filter _ (findall after)); reflexivity.
Qed.

Lemma no_fence_no_code_witness : extract "print(1)" = "".
Proof. apply (no_fence_no_code "print(1)"). vm_compute. reflexivity. Defined.

Lemma unterminated_block_ignored_witness :
  extract ("```python" ++ NL ++ "print(1)") = "".
Proof.
  apply (unterminated_block_ignored ("```python" ++ NL ++ "print(1)")).
  vm_compute. reflexivity.
Defined.

Lemma fenced_block_extracted_witness :
  extract (answer_before ++ fenced " " "print(1)" ++ answer_after)
  = "print(1)".
Proof.
  apply (fenced_block_extracted answer_before " " "rint(1)" answer_after "p");
    vm_compute; reflexivity.
Defined.

End ExtractorFacts.
